(** * ARIA dashboard: the DataTable view pipeline

    A shallow embedding of the [DataTable] component of the dashboard SPA
    (search, sort, paginate), together with the parts of the JavaScript
    runtime the component relies on: [== null], [typeof], [String],
    [localeCompare], [Array.prototype.sort] and array spreading.

    Scope of the runtime model:
    - records are plain objects: a field they do not have themselves is
      read from [Object.prototype];
    - field values are [undefined], [null], numbers and strings, besides
      the functions and the object a record inherits;
    - numbers are [NaN] and the integers a double holds exactly and
      [String] prints in plain decimal, those of magnitude up to 2^53
      (fractions, infinities and larger values are outside the model);
    - strings are byte strings; case folding and collation are modelled
      on printable ASCII, for the root collation, which English and most
      locales use as it is.

    The file has three parts: the embedding, facts about the runtime
    model, and the properties of the component. *)

From Stdlib Require Import ZArith String Ascii List Lia.
From Stdlib Require Import DecimalString DecimalN DecimalPos.
From stdpp Require Import base list gmap strings sorting.

Local Open Scope Z_scope.

(** * Part I: the embedding *)

(** ** JavaScript values *)

Inductive number : Type :=
| NaN
| Fin (z : Z).

Inductive value : Type :=
| VUndefined
| VNull
| VNumber (n : number)
| VString (s : string)
| VFunction (name : string)
| VObject.

(** A record is a plain JavaScript object used as a map from field
    names to values.  [own] reads the fields the record has itself. *)
Definition record : Type := list (string * value).

Fixpoint own (r : record) (k : string) : option value :=
  match r with
  | [] => None
  | (k', v) :: r' => if String.eqb k' k then Some v else own r' k
  end.

(** The properties of [Object.prototype], which every record inherits:
    the function [Object] under [constructor], the prototype itself under
    [__proto__], and ten methods. *)
Definition prototype_methods : list string :=
  ["hasOwnProperty"; "isPrototypeOf"; "propertyIsEnumerable";
   "toLocaleString"; "toString"; "valueOf";
   "__defineGetter__"; "__defineSetter__";
   "__lookupGetter__"; "__lookupSetter__"]%string.

Definition inherited (k : string) : option value :=
  if String.eqb k "constructor" then Some (VFunction "Object")
  else if String.eqb k "__proto__" then Some VObject
  else if existsb (String.eqb k) prototype_methods then Some (VFunction k)
  else None.

(** [r[k]]: the field of the record itself if it has one, else the
    inherited property, else [undefined]. *)
Definition get (r : record) (k : string) : value :=
  match own r k with
  | Some v => v
  | None => default VUndefined (inherited k)
  end.

(** [v == null] holds for [null] and [undefined] only. *)
Definition is_nullish (v : value) : bool :=
  match v with
  | VUndefined | VNull => true
  | _ => false
  end.

(** [typeof v === 'number'] *)
Definition typeof_number (v : value) : bool :=
  match v with
  | VNumber _ => true
  | _ => false
  end.

(** [a - b] and [-a] on numbers. *)
Definition num_sub (a b : number) : number :=
  match a, b with
  | Fin x, Fin y => Fin (x - y)
  | _, _ => NaN
  end.

Definition num_neg (a : number) : number :=
  match a with
  | Fin x => Fin (- x)
  | NaN => NaN
  end.

(** [String(v)] *)
Definition ToString (v : value) : string :=
  match v with
  | VUndefined => "undefined"
  | VNull => "null"
  | VNumber NaN => "NaN"
  | VNumber (Fin z) => NilZero.string_of_int (Z.to_int z)
  | VString s => s
  | VFunction name => "function " +:+ name +:+ "() { [native code] }"
  | VObject => "[object Object]"
  end.

(** The decimal numeral of a natural number. *)
Definition numeral (n : N) : string :=
  NilZero.string_of_uint (N.to_uint n).

(** ** Strings *)

Definition is_digit (c : ascii) : bool :=
  let n := N_of_ascii c in ((48 <=? n) && (n <=? 57))%N.

Definition is_upper (c : ascii) : bool :=
  let n := N_of_ascii c in ((65 <=? n) && (n <=? 90))%N.

Definition is_lower (c : ascii) : bool :=
  let n := N_of_ascii c in ((97 <=? n) && (n <=? 122))%N.

Definition digit_value (c : ascii) : N := (N_of_ascii c - 48)%N.

Fixpoint all_digits (s : string) : bool :=
  match s with
  | EmptyString => true
  | String c s' => is_digit c && all_digits s'
  end.

(** The string does not begin with a digit. *)
Definition no_leading_digit (s : string) : bool :=
  match s with
  | EmptyString => true
  | String c _ => negb (is_digit c)
  end.

(** The characters shown on a line: the codes 32 to 126. *)
Definition printable (c : ascii) : bool :=
  let n := N_of_ascii c in ((32 <=? n) && (n <=? 126))%N.

Fixpoint plain (s : string) : bool :=
  match s with
  | EmptyString => true
  | String c s' => printable c && plain s'
  end.

(** The base letter of an ASCII character: case is dropped. *)
Definition base_char (c : ascii) : ascii :=
  if is_upper c then ascii_of_N (N_of_ascii c + 32) else c.

(** [s.toLowerCase()] *)
Fixpoint toLowerCase (s : string) : string :=
  match s with
  | EmptyString => EmptyString
  | String c s' => String (base_char c) (toLowerCase s')
  end.

(** [s.startsWith(t)] *)
Fixpoint startsWith (s t : string) {struct t} : bool :=
  match t, s with
  | EmptyString, _ => true
  | String _ _, EmptyString => false
  | String c t', String d s' => Ascii.eqb c d && startsWith s' t'
  end.

(** [s.includes(t)] *)
Fixpoint includes (s t : string) : bool :=
  startsWith s t ||
  match s with
  | EmptyString => false
  | String _ s' => includes s' t
  end.

(** Plain code-unit comparison of strings, the order of [<] on strings. *)
Fixpoint lexicographic (s t : string) : comparison :=
  match s, t with
  | EmptyString, EmptyString => Eq
  | EmptyString, String _ _ => Lt
  | String _ _, EmptyString => Gt
  | String c s', String d t' =>
      match (N_of_ascii c ?= N_of_ascii d)%N with
      | Eq => lexicographic s' t'
      | r => r
      end
  end.

(** ** [localeCompare] with [{ numeric: true, sensitivity: 'base' }]

    The collation compares strings at primary strength: letters without
    regard to case, every maximal run of decimal digits by its numeric
    value, white space, punctuation and symbols before digits and digits
    before letters.  A string is first cut into tokens, then the token
    lists are compared lexicographically. *)

(** White space, punctuation, symbols and the dollar sign in the order
    of the root collation, by code: tab, line feed, vertical tab, form
    feed, carriage return, space, then
    [_ - , ; : ! ? . ' quote ( ) [ ] { } @ * / \ & # %],
    then [` ^ + < = > | ~] and [$]. *)
Definition punctuation : list N :=
  [9; 10; 11; 12; 13; 32;
   95; 45; 44; 59; 58; 33; 63; 46; 39; 34; 40; 41; 91; 93; 123; 125;
   64; 42; 47; 92; 38; 35; 37;
   96; 94; 43; 60; 61; 62; 124; 126;
   36]%N.

(** The place of a code in a list of codes, counted from [i]. *)
Fixpoint place (n : N) (l : list N) (i : N) : option N :=
  match l with
  | [] => None
  | m :: l' => if (n =? m)%N then Some i else place n l' (i + 1)%N
  end.

Inductive token : Type :=
| TNum (n : N)
| TChr (c : ascii).

Definition flush (run : option N) : list token :=
  match run with
  | Some n => [TNum n]
  | None => []
  end.

(** [run] is the value of the digit run being read, if any. *)
Fixpoint tokens (run : option N) (s : string) : list token :=
  match s with
  | EmptyString => flush run
  | String c s' =>
      if is_digit c
      then tokens (Some (10 * default 0%N run + digit_value c)%N) s'
      else flush run ++ TChr (base_char c) :: tokens None s'
  end.

(** The digit run that is still open when [s] has been read. *)
Fixpoint pending (run : option N) (s : string) : option N :=
  match s with
  | EmptyString => run
  | String c s' =>
      if is_digit c
      then pending (Some (10 * default 0%N run + digit_value c)%N) s'
      else pending None s'
  end.

(** Primary weight: class (0 white space, punctuation and symbols,
    1 numbers, 2 letters), then the position inside the class.  The
    characters outside printable ASCII and white space are put with the
    letters, by code. *)
Definition weight (t : token) : N * N :=
  match t with
  | TNum n => (1, n)%N
  | TChr c =>
      match place (N_of_ascii c) punctuation 0 with
      | Some i => (0, i)%N
      | None => (2, N_of_ascii c)%N
      end
  end.

Definition weight_compare (a b : N * N) : comparison :=
  match (a.1 ?= b.1)%N with
  | Eq => (a.2 ?= b.2)%N
  | c => c
  end.

Fixpoint collate (xs ys : list token) : comparison :=
  match xs, ys with
  | [], [] => Eq
  | [], _ :: _ => Lt
  | _ :: _, [] => Gt
  | x :: xs', y :: ys' =>
      match weight_compare (weight x) (weight y) with
      | Eq => collate xs' ys'
      | c => c
      end
  end.

Definition sign_of (c : comparison) : Z :=
  match c with
  | Lt => -1
  | Eq => 0
  | Gt => 1
  end.

(** [s.localeCompare(t, undefined, { numeric: true, sensitivity: 'base' })] *)
Definition localeCompare (s t : string) : number :=
  Fin (sign_of (collate (tokens None s) (tokens None t))).

(** ** [Array.prototype.sort]

    The sort is stable and calls the comparison function through
    [SortCompare], which reads a [NaN] result as [+0].  Where the
    comparison function orders the elements consistently there is one
    stable sorted arrangement and every engine returns it; elsewhere the
    order is left to the engine.  The sort is modelled as the stable
    insertion sort: an element is placed in front of the first element it
    does not compare greater than. *)

Section ArraySort.
Context {A : Type} (comparefn : A → A → number).

Definition SortCompare (x y : A) : Z :=
  match comparefn x y with
  | NaN => 0
  | Fin v => v
  end.

Fixpoint insert_sorted (x : A) (l : list A) : list A :=
  match l with
  | [] => [x]
  | y :: l' =>
      if SortCompare x y <=? 0 then x :: l else y :: insert_sorted x l'
  end.

Definition Array_sort (l : list A) : list A :=
  foldr insert_sorted [] l.


(** No element marked by [last] stands in front of one that is not. *)
Fixpoint segregated (last : A → bool) (l : list A) : Prop :=
  match l with
  | [] => True
  | x :: l' =>
      (last x = true → Forall (λ y, last y = true) l') ∧ segregated last l'
  end.
End ArraySort.

(** ** Sort state and [handleSort] *)

Inductive Direction : Type :=
| asc
| desc.

(** [useState({ key: null, direction: 'asc' })] *)
Record SortState : Type := mkSort {
  key : option string;
  direction : Direction
}.

Definition initialSort : SortState := mkSort None asc.

#[global] Instance Direction_eq_dec : EqDecision Direction.
Proof. solve_decision. Defined.

Definition handleSort (prev : SortState) (colKey : string) : SortState :=
  if decide (key prev = Some colKey)
  then mkSort (Some colKey)
         (if decide (direction prev = asc) then desc else asc)
  else mkSort (Some colKey) asc.

Definition opposite (d : Direction) : Direction :=
  match d with
  | asc => desc
  | desc => asc
  end.

(** ** [sortedData] *)

(** The comparison function handed to [sort], for [sort.key = k] and
    [sort.direction = d]. *)
Definition compareRows (k : string) (d : Direction) (a b : record) : number :=
  let aVal := get a k in
  let bVal := get b k in
  if is_nullish aVal && is_nullish bVal then Fin 0
  else if is_nullish aVal then Fin 1
  else if is_nullish bVal then Fin (-1)
  else
    let cmp :=
      if typeof_number aVal && typeof_number bVal
      then
        match aVal, bVal with
        | VNumber x, VNumber y => num_sub x y
        | _, _ => NaN
        end
      else localeCompare (ToString aVal) (ToString bVal) in
    match d with
    | asc => cmp
    | desc => num_neg cmp
    end.

(** The sign of a comparison under a direction. *)
Definition directed (d : Direction) (cmp : number) : number :=
  match d with
  | asc => cmp
  | desc => num_neg cmp
  end.

(** [!sort.key]: no key, or the empty string. *)
Definition no_key (k : option string) : bool :=
  match k with
  | None => true
  | Some s => String.eqb s ""
  end.

(** The elements of the array [sortedData] evaluates to. *)
Definition sortedData (filteredData : list record) (sort : SortState)
  : list record :=
  match key sort with
  | None => filteredData
  | Some k =>
      if String.eqb k "" then filteredData
      else Array_sort (compareRows k (direction sort)) filteredData
  end.

(** Every record without a value for [k] stands behind every record that
    has one. *)
Definition nulls_last (k : string) (l : list record) : Prop :=
  ∀ i j x y,
    l !! i = Some x → l !! j = Some y →
    is_nullish (get x k) = true → is_nullish (get y k) = false →
    (j < i)%nat.

(** ** Arrays as objects: [sortedData] on references

    [filteredData] is an array object shared with the search stage.
    [[...filteredData]] allocates a new array with the same elements and
    [sort] reorders the array it is called on, in place, and returns it.
    A heap maps the address of an array to its elements. *)

Abbreviation ref := nat (only parsing).
Abbreviation heap := (gmap nat (list record)) (only parsing).

(** [[...a]] *)
Definition spread (h : heap) (a : ref) : option (heap * ref) :=
  match h !! a with
  | Some rows => let r := fresh (dom h) in Some (<[r := rows]> h, r)
  | None => None
  end.

(** [a.sort(comparefn)] *)
Definition sort_in_place (comparefn : record → record → number)
    (h : heap) (a : ref) : option (heap * ref) :=
  match h !! a with
  | Some rows => Some (<[a := Array_sort comparefn rows]> h, a)
  | None => None
  end.

Definition sortedData_ref (h : heap) (filteredData : ref) (sort : SortState)
  : option (heap * ref) :=
  match key sort with
  | None => Some (h, filteredData)
  | Some k =>
      if String.eqb k "" then Some (h, filteredData)
      else
        match spread h filteredData with
        | Some (h1, copy) =>
            sort_in_place (compareRows k (direction sort)) h1 copy
        | None => None
        end
  end.

(** ** The hooks

    [hooks/useSearch.js] and [hooks/usePagination.js] are imported by the
    component; they are described by the design document only. *)

Inductive error : Type :=
| ConfigurationError.

(** Modelled from the spec: [useSearch.js] is missing; a field matches
    when it has a value whose string form contains the term, both taken
    without regard to case; a field that is null or absent does not
    match. *)
Definition field_matches (term : string) (r : record) (field : string) : bool :=
  let val := get r field in
  negb (is_nullish val) &&
  includes (toLowerCase (ToString val)) (toLowerCase term).

(** Modelled from the spec: [useSearch.js] is missing; the filter is the
    identity for the empty term and keeps, in their order, the records
    that match on any of the fields otherwise. *)
Definition searchFilter (records : list record) (term : string)
    (fields : list string) : list record :=
  if String.eqb term "" then records
  else List.filter (λ r, existsb (field_matches term r) fields) records.

(** [useSearch(data, fields)] with its state [searchTerm]. *)
Definition useSearch (data : list record) (fields : list string)
    (searchTerm : string) : list record :=
  searchFilter data searchTerm fields.



(** [selects P l l']: [l'] is [l] without the elements that fail [P]. *)
Inductive selects (P : record → Prop) : list record → list record → Prop :=
| selects_nil : selects P [] []
| selects_keep r l l' : P r → selects P l l' → selects P (r :: l) (r :: l')
| selects_skip r l l' : ¬ P r → selects P l l' → selects P (r :: l) l'.

(** Modelled from the spec: [usePagination.js] is missing; a collection
    of [totalCount] records has
    [max(1, ceil(totalCount / pageSize))] pages when [totalCount > 0],
    else [0]. *)
Definition totalPages_of (totalCount pageSize : Z) : Z :=
  if 0 <? totalCount
  then Z.max 1 ((totalCount + pageSize - 1) / pageSize)
  else 0.

(** Modelled from the spec: [usePagination.js] is missing; the page index
    is clamped into [[0, totalPages - 1]], or to [0] when there is no
    record. *)
Definition clamp (totalPages pageIndex : Z) : Z :=
  if totalPages <=? 0 then 0
  else Z.max 0 (Z.min pageIndex (totalPages - 1)).

(** [records.slice(page * pageSize, page * pageSize + pageSize)] *)
Definition slice_page (records : list record) (pageSize page : Z)
  : list record :=
  take (Z.to_nat pageSize) (drop (Z.to_nat (page * pageSize)) records).

(** What [usePagination] hands to the component, apart from the two
    navigation callbacks. *)
Record Pagination : Type := mkPagination {
  pageData : list record;
  totalPages : Z;
  total : Z;
  startIndex : Z;
  endIndex : Z;
  page : Z
}.

(** Modelled from the spec: [usePagination.js] is missing; the paginator
    refuses a page size that is not positive, clamps the page index, cuts
    the page out of the collection and reports the 1-based inclusive
    bounds of the page, both [0] when there is no record. *)
Definition usePagination (records : list record) (pageSize pageIndex : Z)
  : error + Pagination :=
  if pageSize <=? 0 then inl ConfigurationError
  else
    let totalCount := Z.of_nat (length records) in
    let pages := totalPages_of totalCount pageSize in
    let p := clamp pages pageIndex in
    inr {| pageData := slice_page records pageSize p;
           totalPages := pages;
           total := totalCount;
           startIndex := if totalCount =? 0 then 0 else p * pageSize + 1;
           endIndex := if totalCount =? 0 then 0
                       else Z.min ((p + 1) * pageSize) totalCount;
           page := p |}.

(** Modelled from the spec: [usePagination.js] is missing; [next] is
    [pageIndex + 1], clamped, and [prev] is [pageIndex - 1], clamped. *)
Definition nextPage (totalPages pageIndex : Z) : Z :=
  clamp totalPages (pageIndex + 1).

Definition prevPage (totalPages pageIndex : Z) : Z :=
  clamp totalPages (pageIndex - 1).

(** The page of a result, empty for a refused configuration. *)
Definition pageData_of (r : error + Pagination) : list record :=
  match r with
  | inr p => pageData p
  | inl _ => []
  end.

(** The pages [0 .. totalPages - 1] of a collection, in order. *)
Definition all_pages (records : list record) (pageSize : Z)
  : list (list record) :=
  map (λ i : nat, pageData_of (usePagination records pageSize (Z.of_nat i)))
      (seq 0 (Z.to_nat (totalPages_of (Z.of_nat (length records)) pageSize))).

(** ** The component *)

Record Column : Type := mkColumn {
  col_key : string;
  col_label : string;
  col_sortable : bool
}.

(** The properties of [DataTable]; [data] may be null or undefined and
    [pageSize] may be left out. *)
Record Props : Type := mkProps {
  columns : list Column;
  data : option (list record);
  searchFields : list string;
  pageSize : option Z
}.

(** The state kept by the hooks between renders. *)
Record TableState : Type := mkState {
  searchTerm : string;
  sort : SortState;
  pageIndex : Z
}.

Definition initialState : TableState := mkState "" initialSort 0.

(** [page > 0] and [page < totalPages - 1] *)
Definition hasFirst (page : Z) : bool := 0 <? page.

Definition hasLast (page totalPages : Z) : bool := page <? totalPages - 1.

(** The cell of a row under a column without a [render] function: the
    value of the field, or an em dash when there is none. *)
Definition cell (row : record) (col : Column) : value :=
  let v := get row (col_key col) in
  if is_nullish v then VString "—" else v.

(** What a render computes and shows: the collections of the pipeline,
    one header per column, one line of cells per record of the page, the
    message shown in place of the lines when the page is empty, and the
    footer with its two buttons. *)
Record View : Type := mkView {
  view_safeData : list record;
  view_filteredData : list record;
  view_sortedData : list record;
  view_pagination : Pagination;
  view_hasFirst : bool;
  view_hasLast : bool;
  view_header : list Column;
  view_rows : list (list value);
  view_emptyMessage : option string;
  view_footer : bool
}.

Definition DataTable (props : Props) (st : TableState) : error + View :=
  let pageSize := default 50 (pageSize props) in
  let safeData := default [] (data props) in
  let filteredData := useSearch safeData (searchFields props) (searchTerm st) in
  let sortedData := sortedData filteredData (sort st) in
  match usePagination sortedData pageSize (pageIndex st) with
  | inl e => inl e
  | inr pg =>
      inr {| view_safeData := safeData;
             view_filteredData := filteredData;
             view_sortedData := sortedData;
             view_pagination := pg;
             view_hasFirst := hasFirst (page pg);
             view_hasLast := hasLast (page pg) (totalPages pg);
             view_header := columns props;
             view_rows :=
               map (λ row, map (cell row) (columns props)) (pageData pg);
             view_emptyMessage :=
               if (length (pageData pg) =? 0)%nat
               then Some (if (length safeData =? 0)%nat
                          then "No data available"%string
                          else "No results match your filters"%string)
               else None;
             view_footer := 0 <? total pg |}
  end.

Definition with_data (props : Props) (d : option (list record)) : Props :=
  mkProps (columns props) d (searchFields props) (pageSize props).

(** ** Sample data *)

Definition A_row : record := [("id", VString "A"); ("val", VNumber (Fin 5))].
Definition B_row : record := [("id", VString "B"); ("val", VNull)].
Definition C_row : record := [("id", VString "C"); ("val", VNumber (Fin 2))].

Definition item2 : record := [("name", VString "item2")].
Definition item10 : record := [("name", VString "item10")].

Definition lamp : record := [("name", VString "Lamp")].
Definition lamp2 : record := [("name", VString "lamp2")].
Definition fan : record := [("name", VString "Fan")].

Definition seven : list record :=
  [lamp; lamp2; fan; item2; item10; A_row; C_row].

Definition twice : list Column :=
  [mkColumn "name" "Name" true; mkColumn "name" "Again" false].

(** ** The rest of the render: line keys, header cells, header clicks *)

#[global] Instance number_eq_dec : EqDecision number.
Proof. solve_decision. Defined.

#[global] Instance value_eq_dec : EqDecision value.
Proof. solve_decision. Defined.

(** The truth of a value, as [||] and [?:] read it. *)
Definition truthy (v : value) : bool :=
  match v with
  | VUndefined | VNull => false
  | VNumber NaN => false
  | VNumber (Fin z) => negb (z =? 0)
  | VString s => negb (String.eqb s "")
  | VFunction _ | VObject => true
  end.

(** [a || b] *)
Definition or_else (a b : value) : value :=
  if truthy a then a else b.

(** [row.id || row.entity_id || idx], the key of the line of a record. *)
Definition rowKey (row : record) (idx : nat) : value :=
  or_else (or_else (get row "id") (get row "entity_id"))
    (VNumber (Fin (Z.of_nat idx))).

(** The keys of the lines of a page, [pageData.map((row, idx) => ...)]. *)
Definition rowKeys (pageData : list record) : list value :=
  imap (λ idx row, rowKey row idx) pageData.

(** What [SortIndicator] draws: both arrows, dimmed, on a column that
    is not the sort column; else the arrow of the direction. *)
Inductive Arrows : Type :=
| BothArrows
| UpArrow
| DownArrow.

#[global] Instance Arrows_eq_dec : EqDecision Arrows.
Proof. solve_decision. Defined.

Definition SortIndicator (active : bool) (direction : Direction) : Arrows :=
  if negb active then BothArrows
  else if decide (direction = asc) then UpArrow
  else DownArrow.

(** The indicator in the header cell of a column: a sortable column has
    one, active when [sort.key === col.key]. *)
Definition indicator (sort : SortState) (col : Column) : option Arrows :=
  if col_sortable col
  then Some (SortIndicator (bool_decide (key sort = Some (col_key col)))
               (direction sort))
  else None.

(** A click on the header cell of a column:
    [onClick={col.sortable ? () => handleSort(col.key) : undefined}]. *)
Definition clickHeader (sort : SortState) (col : Column) : SortState :=
  if col_sortable col then handleSort sort (col_key col) else sort.

(** An indicator that shows one arrow. *)
Definition one_arrow (o : option Arrows) : Prop :=
  o = Some UpArrow ∨ o = Some DownArrow.

(** The field of a record has a value: it is neither null nor absent. *)
Definition valued (k : string) (r : record) : Prop :=
  is_nullish (get r k) = false.

#[global] Instance valued_dec k r : Decision (valued k r).
Proof. unfold valued. apply _. Defined.

(** The column [k] of a record holds a number that is not [NaN], or
    nothing. *)
Definition number_or_nothing (k : string) (r : record) : Prop :=
  is_nullish (get r k) = true ∨ ∃ a, get r k = VNumber (Fin a).

(** The column [k] of a record holds a string, or nothing. *)
Definition string_or_nothing (k : string) (r : record) : Prop :=
  is_nullish (get r k) = true ∨ ∃ s, get r k = VString s.

(** The column [k] of a record holds a string of printable characters,
    or nothing. *)
Definition plain_or_nothing (k : string) (r : record) : Prop :=
  is_nullish (get r k) = true ∨ ∃ s, get r k = VString s ∧ plain s = true.

(** The record has no field [k] of its own, or one that is null or
    undefined. *)
Definition absent_or_null (k : string) (r : record) : Prop :=
  own r k = None ∨ own r k = Some VNull ∨ own r k = Some VUndefined.

(** A weight comes before another: by class, or in the class by
    position. *)
Definition weight_lt (a b : N * N) : Prop :=
  (a.1 < b.1 ∨ a.1 = b.1 ∧ a.2 < b.2)%N.

(** The number in the column [k] of a record, [0] when there is none. *)
Definition number_at (k : string) (r : record) : Z :=
  match get r k with
  | VNumber (Fin a) => a
  | _ => 0
  end.

(** * Part II: facts about the runtime model *)

(** ** The stable sort *)

Section ArraySortFacts.
Context {A : Type} (comparefn : A → A → number).

Local Abbreviation cmp := (SortCompare comparefn).
Local Abbreviation ins := (insert_sorted comparefn).
Local Abbreviation srt := (Array_sort comparefn).

Lemma Array_sort_cons x l : srt (x :: l) = ins x (srt l).
Proof. reflexivity. Qed.

Lemma insert_sorted_perm x l : ins x l ≡ₚ x :: l.
Proof.
  induction l as [|y l IH]; simpl; [done|].
  destruct (cmp x y <=? 0); [done|].
  rewrite IH. apply Permutation_swap.
Qed.

Lemma Array_sort_perm l : srt l ≡ₚ l.
Proof.
  induction l as [|x l IH]; [done|].
  by rewrite Array_sort_cons, insert_sorted_perm, IH.
Qed.

Lemma Array_sort_length l : length (srt l) = length l.
Proof. by rewrite Array_sort_perm. Qed.


Section Asymmetric.
(** The comparison never says "greater" in both directions. *)
Hypothesis cmp_asym : ∀ x y, 0 < cmp x y → cmp y x <= 0.



End Asymmetric.

Section Segregation.
(** [last] marks the elements the comparison sends behind all others. *)
Context (last : A → bool).
Hypothesis last_after : ∀ x y, last x = true → last y = false → 0 < cmp x y.
Hypothesis before_last : ∀ x y, last x = false → last y = true → cmp x y < 0.

Lemma insert_sorted_segregated x l :
  segregated last l → segregated last (ins x l).
Proof.
  induction l as [|y l IH]; simpl; [done|].
  intros [Hy Hl]. destruct (cmp x y <=? 0) eqn:Hxy; simpl.
  - apply Z.leb_le in Hxy. split; [|done].
    intros Hx. destruct (last y) eqn:Hly.
    + constructor; auto.
    + specialize (last_after _ _ Hx Hly). lia.
  - apply Z.leb_gt in Hxy. split; [|auto].
    intros Hly. rewrite insert_sorted_perm. constructor; [|auto].
    destruct (last x) eqn:Hx; [done|].
    specialize (before_last _ _ Hx Hly). lia.
Qed.

Lemma Array_sort_segregated l : segregated last (srt l).
Proof.
  induction l as [|x l IH]; [done|].
  rewrite Array_sort_cons. by apply insert_sorted_segregated.
Qed.
End Segregation.
End ArraySortFacts.

Lemma segregated_lookup {A} (last : A → bool) (l : list A) i j x y :
  segregated last l → l !! i = Some x → l !! j = Some y →
  last x = true → last y = false → (j < i)%nat.
Proof.
  revert i j. induction l as [|z l IH]; intros i j; simpl; [done|].
  intros [Hz Hl] Hi Hj Hx Hy.
  destruct i as [|i], j as [|j]; simpl in *.
  - congruence.
  - injection Hi as ->. specialize (Hz Hx).
    rewrite Forall_forall in Hz.
    assert (last y = true) by (eapply Hz, list_elem_of_lookup_2; eauto).
    congruence.
  - lia.
  - specialize (IH i j Hl Hi Hj Hx Hy). lia.
Qed.

(** ** Numbers *)

Lemma num_sub_antisym x y : num_sub y x = num_neg (num_sub x y).
Proof. destruct x, y; simpl; try done. f_equal. lia. Qed.

Lemma num_neg_involutive x : num_neg (num_neg x) = x.
Proof. destruct x; simpl; try done. f_equal. lia. Qed.

(** ** Characters and substrings *)

Lemma is_digit_base_char c : is_digit (base_char c) = is_digit c.
Proof. destruct c as [[] [] [] [] [] [] [] []]; reflexivity. Qed.

Lemma base_char_digit c : is_digit c = true → base_char c = c.
Proof.
  destruct c as [[] [] [] [] [] [] [] []]; (reflexivity || discriminate).
Qed.

Lemma base_char_idemp c : base_char (base_char c) = base_char c.
Proof. destruct c as [[] [] [] [] [] [] [] []]; reflexivity. Qed.



(** ** The collation *)

Lemma weight_compare_refl a : weight_compare a a = Eq.
Proof. unfold weight_compare. by rewrite !N.compare_refl. Qed.

Lemma weight_compare_antisym a b :
  weight_compare b a = CompOpp (weight_compare a b).
Proof.
  unfold weight_compare.
  rewrite (N.compare_antisym a.1 b.1), (N.compare_antisym a.2 b.2).
  by destruct (a.1 ?= b.1)%N.
Qed.

Lemma collate_antisym xs ys : collate ys xs = CompOpp (collate xs ys).
Proof.
  revert ys. induction xs as [|x xs IH]; intros [|y ys]; simpl; try done.
  rewrite (weight_compare_antisym (weight x) (weight y)).
  destruct (weight_compare (weight x) (weight y)); simpl; auto.
Qed.

Lemma collate_common_prefix pre xs ys :
  collate (pre ++ xs) (pre ++ ys) = collate xs ys.
Proof.
  induction pre as [|t pre IH]; simpl; [done|].
  by rewrite weight_compare_refl.
Qed.

Lemma sign_of_CompOpp c : sign_of (CompOpp c) = - sign_of c.
Proof. by destruct c. Qed.

Lemma localeCompare_antisym s t :
  localeCompare t s = num_neg (localeCompare s t).
Proof.
  unfold localeCompare. simpl.
  by rewrite (collate_antisym (tokens None s)), sign_of_CompOpp.
Qed.

(** Case does not matter. *)
Lemma tokens_toLowerCase run s : tokens run (toLowerCase s) = tokens run s.
Proof.
  revert run. induction s as [|c s IH]; intros run; simpl; [done|].
  rewrite is_digit_base_char, base_char_idemp.
  destruct (is_digit c) eqn:Hc; [|by rewrite IH].
  by rewrite (base_char_digit c Hc), IH.
Qed.

Lemma localeCompare_ignores_case s t :
  localeCompare (toLowerCase s) (toLowerCase t) = localeCompare s t.
Proof. unfold localeCompare. by rewrite !tokens_toLowerCase. Qed.

(** A common prefix is skipped; what is left is compared from the digit
    run the prefix leaves open. *)
Lemma collate_tokens_prefix p run a b :
  collate (tokens run (p +:+ a)) (tokens run (p +:+ b))
  = collate (tokens (pending run p) a) (tokens (pending run p) b).
Proof.
  revert run. induction p as [|c p IH]; intros run; simpl; [done|].
  destruct (is_digit c); [apply IH|].
  rewrite (collate_common_prefix (flush run)). simpl.
  rewrite weight_compare_refl. apply IH.
Qed.

(** ** Decimal numerals under the tokenizer *)

Lemma tokens_digit c run s :
  is_digit c = true →
  tokens run (String c s)
  = tokens (Some (10 * default 0%N run + digit_value c)%N) s.
Proof. intros Hc. simpl. by rewrite Hc. Qed.

Lemma tokens_run_pos d acc :
  tokens (Some (N.pos acc)) (NilEmpty.string_of_uint d)
  = [TNum (N.pos (Pos.of_uint_acc d acc))].
Proof.
  revert acc.
  induction d as [|d IH|d IH|d IH|d IH|d IH|d IH|d IH|d IH|d IH|d IH];
    intros acc; [done|..];
    cbn [NilEmpty.string_of_uint Pos.of_uint_acc];
    rewrite tokens_digit, <- IH by done;
    do 2 f_equal; vm_compute (digit_value _); cbn [default]; unfold id; lia.
Qed.

Lemma tokens_run_zero d :
  tokens (Some 0%N) (NilEmpty.string_of_uint d) = [TNum (N.of_uint d)].
Proof.
  induction d as [|d IH|d IH|d IH|d IH|d IH|d IH|d IH|d IH|d IH|d IH];
    [done|apply IH|..]; apply tokens_run_pos.
Qed.

Lemma tokens_numeral d :
  tokens None (NilZero.string_of_uint d) = [TNum (N.of_uint d)].
Proof.
  destruct d; [done|..];
    cbn [NilZero.string_of_uint NilEmpty.string_of_uint N.of_uint Pos.of_uint];
    rewrite tokens_digit by done.
  - apply tokens_run_zero.
  - apply tokens_run_pos.
  - apply tokens_run_pos.
  - apply tokens_run_pos.
  - apply tokens_run_pos.
  - apply tokens_run_pos.
  - apply tokens_run_pos.
  - apply tokens_run_pos.
  - apply tokens_run_pos.
  - apply tokens_run_pos.
Qed.

Lemma ToString_natural n : ToString (VNumber (Fin (Z.of_N n))) = numeral n.
Proof. by destruct n. Qed.

Lemma tokens_natural n : tokens None (numeral n) = [TNum n].
Proof.
  unfold numeral. by rewrite tokens_numeral, DecimalN.Unsigned.of_to.
Qed.

Lemma all_digits_string_of_uint d :
  all_digits (NilEmpty.string_of_uint d) = true.
Proof. induction d; simpl; done. Qed.

Lemma all_digits_numeral n : all_digits (numeral n) = true.
Proof.
  unfold numeral, NilZero.string_of_uint.
  destruct (N.to_uint n); try done; apply (all_digits_string_of_uint (_ u)).
Qed.

(** A run of digits is read into the open run. *)
Lemma tokens_app_digits ds run q :
  all_digits ds = true → tokens run (ds +:+ q) = tokens (pending run ds) q.
Proof.
  revert run. induction ds as [|c ds IH]; intros run; simpl; [done|].
  intros [Hc Hds]%andb_true_iff. rewrite Hc. by apply IH.
Qed.

Lemma tokens_digits ds run :
  all_digits ds = true → tokens run ds = flush (pending run ds).
Proof.
  revert run. induction ds as [|c ds IH]; intros run; simpl; [done|].
  intros [Hc Hds]%andb_true_iff. rewrite Hc. by apply IH.
Qed.

Lemma pending_numeral n : pending None (numeral n) = Some n.
Proof.
  pose proof (tokens_natural n) as Ht.
  rewrite tokens_digits in Ht by apply all_digits_numeral.
  destruct (pending None (numeral n)); simpl in Ht; congruence.
Qed.

(** What follows a run closes it. *)
Lemma tokens_close_run v q :
  no_leading_digit q = true → tokens (Some v) q = TNum v :: tokens None q.
Proof.
  destruct q as [|c q]; simpl; [done|].
  intros Hc%negb_true_iff. by rewrite Hc.
Qed.

Lemma tokens_numeral_app n q :
  no_leading_digit q = true →
  tokens None (numeral n +:+ q) = TNum n :: tokens None q.
Proof.
  intros Hq. rewrite tokens_app_digits by apply all_digits_numeral.
  rewrite pending_numeral. by apply tokens_close_run.
Qed.

(** After a common prefix that does not end in a digit, two digit runs
    are ordered by their values, whatever follows them; when the values
    are the same, what follows decides. *)
Lemma localeCompare_digit_runs p n m q q' :
  pending None p = None →
  no_leading_digit q = true → no_leading_digit q' = true →
  localeCompare (p +:+ numeral n +:+ q) (p +:+ numeral m +:+ q')
  = match (n ?= m)%N with
    | Eq => localeCompare q q'
    | c => Fin (sign_of c)
    end.
Proof.
  intros Hp Hq Hq'. unfold localeCompare.
  rewrite collate_tokens_prefix, Hp, !tokens_numeral_app by done. simpl.
  unfold weight_compare. simpl. by destruct (n ?= m)%N.
Qed.

(** * Part III: the component *)

(** ** The comparison function of [sortedData] *)

Lemma compareRows_antisym k d a b :
  compareRows k d b a = num_neg (compareRows k d a b).
Proof.
  unfold compareRows.
  destruct (is_nullish (get a k)) eqn:Ha, (is_nullish (get b k)) eqn:Hb;
    cbn [andb]; try done.
  rewrite (andb_comm (typeof_number (get b k))).
  destruct (typeof_number (get a k) && typeof_number (get b k)) eqn:Hn.
  - destruct (get a k) as [| |x| | |], (get b k) as [| |y| | |];
      try discriminate.
    rewrite (num_sub_antisym x y). by destruct d; rewrite ?num_neg_involutive.
  - rewrite (localeCompare_antisym (ToString (get a k)) (ToString (get b k))).
    by destruct d; rewrite ?num_neg_involutive.
Qed.

Lemma SortCompare_compareRows_antisym k d a b :
  SortCompare (compareRows k d) b a = - SortCompare (compareRows k d) a b.
Proof.
  unfold SortCompare. rewrite (compareRows_antisym k d a b).
  by destruct (compareRows k d a b).
Qed.

Lemma compareRows_null_after k d a b :
  is_nullish (get a k) = true → is_nullish (get b k) = false →
  0 < SortCompare (compareRows k d) a b.
Proof. unfold SortCompare, compareRows. intros -> ->. simpl. lia. Qed.

Lemma compareRows_before_null k d a b :
  is_nullish (get a k) = false → is_nullish (get b k) = true →
  SortCompare (compareRows k d) a b < 0.
Proof. unfold SortCompare, compareRows. intros -> ->. simpl. lia. Qed.

Lemma Array_sort_nulls_last k d rows :
  nulls_last k (Array_sort (compareRows k d) rows).
Proof.
  intros i j x y Hi Hj Hx Hy.
  eapply (segregated_lookup (λ r, is_nullish (get r k))); eauto.
  apply Array_sort_segregated.
  - intros; by apply compareRows_null_after.
  - intros; by apply compareRows_before_null.
Qed.

(** ** [sortedData] *)

Lemma sortedData_perm rows s : sortedData rows s ≡ₚ rows.
Proof.
  unfold sortedData. destruct (key s) as [k|]; [|done].
  destruct (String.eqb k ""); [done|]. apply Array_sort_perm.
Qed.

Lemma sortedData_no_key rows s :
  no_key (key s) = true → sortedData rows s = rows.
Proof.
  unfold sortedData, no_key. destruct (key s) as [k|]; [|done]. by intros ->.
Qed.

Lemma sortedData_with_key rows k d :
  k ≠ ""%string →
  sortedData rows (mkSort (Some k) d) = Array_sort (compareRows k d) rows.
Proof.
  intros Hk. unfold sortedData. simpl.
  by destruct (String.eqb_spec k "").
Qed.

Lemma sortedData_nil s : sortedData [] s = [].
Proof.
  unfold sortedData. destruct (key s) as [k|]; [|done].
  by destruct (String.eqb k "").
Qed.

Lemma sortedData_nil_iff rows s : sortedData rows s = [] ↔ rows = [].
Proof.
  split; [|intros ->; apply sortedData_nil].
  intros H. apply Permutation_nil_r. rewrite <- H.
  symmetry. apply sortedData_perm.
Qed.

Lemma is_nullish_get r k :
  inherited k = None → is_nullish (get r k) = true ↔ absent_or_null k r.
Proof.
  unfold get, absent_or_null. intros ->. simpl.
  destruct (own r k) as [v|]; simpl; [|split; [by left|done]].
  split.
  - destruct v; try done; intros _; [right; by right|right; by left].
  - intros [H|[[= ->]|[= ->]]]; done.
Qed.

(** C1 (as amended): for every collection of records and every sort key
    other than the empty string, in both directions, the sorted collection
    is a rearrangement of the input in which every record for which the
    key reads as null or undefined stands after every record for which it
    reads as a value; for a key that is not a property every object
    inherits, the former are the records whose field is absent or null;
    for A{val:5}, B{val:null}, C{val:2} sorting by val gives [C, A, B]
    ascending and [A, C, B] descending. *)
Theorem sortedData_nulls_last :
  (∀ rows k d, k ≠ ""%string →
     sortedData rows (mkSort (Some k) d) ≡ₚ rows ∧
     nulls_last k (sortedData rows (mkSort (Some k) d))) ∧
  (∀ r k, inherited k = None →
     is_nullish (get r k) = true ↔ absent_or_null k r) ∧
  sortedData [A_row; B_row; C_row] (mkSort (Some "val") asc)
    = [C_row; A_row; B_row] ∧
  sortedData [A_row; B_row; C_row] (mkSort (Some "val") desc)
    = [A_row; C_row; B_row].
Proof.
  split; [|split; [apply is_nullish_get|by split]].
  intros rows k d Hk. split; [apply sortedData_perm|].
  rewrite sortedData_with_key by done. apply Array_sort_nulls_last.
Qed.

Lemma sortedData_nulls_last_witness :
  (sortedData [B_row; A_row] (mkSort (Some "val") desc) ≡ₚ [B_row; A_row] ∧
   nulls_last "val" (sortedData [B_row; A_row] (mkSort (Some "val") desc))) ∧
  (is_nullish (get A_row "entity_id") = true
   ↔ absent_or_null "entity_id" A_row).
Proof.
  split.
  - apply (proj1 sortedData_nulls_last [B_row; A_row] "val"%string desc).
    discriminate.
  - apply (proj1 (proj2 sortedData_nulls_last) A_row "entity_id"%string).
    reflexivity.
Defined.

(** C1 as stated fails for the empty key: [!sort.key] holds for it, the
    collection is handed on as it is, and a record without a value stays
    in front of one with a value. *)
Lemma sortedData_empty_key_keeps_null_first :
  ¬ nulls_last ""
      (sortedData [[("", VNull)]; [("", VNumber (Fin 5))]]
         (mkSort (Some "") asc)).
Proof.
  intros H.
  specialize (H 0%nat 1%nat [(""%string, VNull)] [(""%string, VNumber (Fin 5))]
                eq_refl eq_refl eq_refl eq_refl).
  lia.
Qed.

(** A key that every object inherits reads as a value on a record
    without the field: the function [Object], compared as a string. *)
Example sortedData_inherited_key :
  sortedData [[("id", VNumber (Fin 1))];
              [("id", VNumber (Fin 2)); ("constructor", VString "zzz")]]
    (mkSort (Some "constructor") asc)
  = [[("id", VNumber (Fin 1))];
     [("id", VNumber (Fin 2)); ("constructor", VString "zzz")]].
Proof. reflexivity. Qed.


(** C4: when the two compared values are present and at least one of
    them is not a number, the comparison is the collation of their string
    forms, negated for the descending direction; the collation ignores
    case and orders the digit runs inside the strings by value, whatever
    stands around them, so that "item2" and "item10" sort ascending as
    [item2, item10] although "item10" precedes "item2" code unit by
    code unit. *)
Theorem compareRows_collates_non_numbers :
  (∀ k d a b,
     is_nullish (get a k) = false → is_nullish (get b k) = false →
     typeof_number (get a k) && typeof_number (get b k) = false →
     compareRows k d a b
     = directed d (localeCompare (ToString (get a k)) (ToString (get b k)))) ∧
  (∀ s t, localeCompare (toLowerCase s) (toLowerCase t) = localeCompare s t) ∧
  (∀ p n m q q',
     pending None p = None →
     no_leading_digit q = true → no_leading_digit q' = true →
     localeCompare (p +:+ numeral n +:+ q) (p +:+ numeral m +:+ q')
     = match (n ?= m)%N with
       | Eq => localeCompare q q'
       | c => Fin (sign_of c)
       end) ∧
  localeCompare "item2" "item10" = Fin (-1) ∧
  lexicographic "item2" "item10" = Gt ∧
  localeCompare "a2b" "a10b" = Fin (-1) ∧
  localeCompare "Item2" "item2" = Fin 0 ∧
  sortedData [item10; item2] (mkSort (Some "name") asc) = [item2; item10] ∧
  sortedData [item2; item10] (mkSort (Some "name") asc) = [item2; item10].
Proof.
  split; [|split; [apply localeCompare_ignores_case|]].
  - intros k d a b Ha Hb Hn. unfold compareRows, directed.
    by rewrite Ha, Hb, Hn.
  - split; [apply localeCompare_digit_runs|by repeat split].
Qed.

Lemma compareRows_collates_non_numbers_witness :
  compareRows "name" desc item2 [("name", VNumber (Fin 10))]
  = directed desc
      (localeCompare (ToString (get item2 "name"))
         (ToString (get [("name", VNumber (Fin 10))] "name"))) ∧
  localeCompare ("room " +:+ numeral 2 +:+ "b") ("room " +:+ numeral 10 +:+ "a")
  = Fin (-1).
Proof.
  split.
  - apply (proj1 compareRows_collates_non_numbers); reflexivity.
  - apply (proj1 (proj2 (proj2 compareRows_collates_non_numbers))
             "room "%string 2%N 10%N "b"%string "a"%string);
      reflexivity.
Defined.

(** ** [handleSort] *)

(** C6: [handleSort] with the current key keeps the key and flips the
    direction (twice gives the state back); with another key it takes that
    key and the ascending direction. *)
Theorem handleSort_toggles (prev : SortState) (K : string) :
  (key prev = Some K →
     handleSort prev K = mkSort (Some K) (opposite (direction prev)) ∧
     handleSort (handleSort prev K) K = prev) ∧
  (key prev ≠ Some K → handleSort prev K = mkSort (Some K) asc).
Proof.
  unfold handleSort. split.
  - intros HK. destruct prev as [k d]. simpl in *. subst k.
    destruct d; simpl; repeat (case_decide; simpl; try done).
  - intros HK. by case_decide.
Qed.

Lemma handleSort_toggles_witness :
  (handleSort (mkSort (Some "name") asc) "name" = mkSort (Some "name") desc ∧
   handleSort (handleSort (mkSort (Some "name") asc) "name") "name"
   = mkSort (Some "name") asc) ∧
  handleSort (mkSort (Some "name") desc) "val" = mkSort (Some "val") asc.
Proof.
  split.
  - apply (proj1 (handleSort_toggles (mkSort (Some "name") asc) "name")).
    reflexivity.
  - apply (proj2 (handleSort_toggles (mkSort (Some "name") desc) "val")).
    discriminate.
Defined.

(** ** [sortedData] on references *)

Lemma spread_spec (h : heap) a rows :
  h !! a = Some rows →
  ∃ r, spread h a = Some (<[r := rows]> h, r) ∧ h !! r = None.
Proof.
  intros Ha. unfold spread. rewrite Ha. eexists. split; [done|].
  apply not_elem_of_dom, is_fresh.
Qed.

(** C9 (as amended): with a sort key that is not empty, [sortedData]
    returns a new array, one that was not on the heap before, which holds
    the sorted elements, and every array that was on the heap, the
    filtered collection among them, has the elements it had; with no key
    or the empty key it returns the filtered collection itself and the
    heap is as it was. *)
Theorem sortedData_ref_leaves_input (h : heap) (filteredData : ref)
    (rows : list record) (sort : SortState) :
  h !! filteredData = Some rows →
  ∃ h' out,
    sortedData_ref h filteredData sort = Some (h', out) ∧
    h' !! out = Some (sortedData rows sort) ∧
    (∀ a old, h !! a = Some old → h' !! a = Some old) ∧
    (no_key (key sort) = false → h !! out = None ∧ out ≠ filteredData) ∧
    (no_key (key sort) = true → out = filteredData ∧ h' = h).
Proof.
  intros Hin. unfold sortedData_ref, sortedData, no_key.
  destruct (key sort) as [k|].
  2: { exists h, filteredData. by repeat split. }
  destruct (String.eqb k "").
  { exists h, filteredData. by repeat split. }
  destruct (spread_spec h filteredData rows Hin) as (r & -> & Hr).
  unfold sort_in_place. rewrite lookup_insert_eq.
  eexists _, r. split; [done|]. rewrite insert_insert_eq, lookup_insert_eq.
  repeat split; auto; try congruence.
  intros a old Ha. rewrite lookup_insert_ne; [done|congruence].
Qed.

Lemma sortedData_ref_leaves_input_witness :
  ∃ h' out,
    sortedData_ref {[ 0%nat := [A_row; B_row; C_row] ]} 0%nat
      (mkSort (Some "val") asc) = Some (h', out) ∧
    h' !! out = Some [C_row; A_row; B_row] ∧
    h' !! 0%nat = Some [A_row; B_row; C_row] ∧
    ({[ 0%nat := [A_row; B_row; C_row] ]} : heap) !! out = None ∧
    out ≠ 0%nat.
Proof.
  assert (Hin : ({[ 0%nat := [A_row; B_row; C_row] ]} : heap) !! 0%nat
                = Some [A_row; B_row; C_row]) by reflexivity.
  destruct (sortedData_ref_leaves_input _ _ _ (mkSort (Some "val") asc) Hin)
    as (h' & out & Hrun & Hout & Hframe & Hnew & _).
  exists h', out. split; [exact Hrun|]. split; [exact Hout|].
  split; [apply Hframe; reflexivity|]. apply Hnew. reflexivity.
Defined.

(** C9 as stated fails for the empty key: what comes back is the very
    array that went in, not a new one. *)
Lemma sortedData_ref_empty_key_returns_input :
  sortedData_ref {[ 0%nat := [A_row; B_row; C_row] ]} 0%nat
    (mkSort (Some "") desc)
  = Some ({[ 0%nat := [A_row; B_row; C_row] ]}, 0%nat).
Proof. reflexivity. Qed.

Example sortedData_ref_sorts_a_copy :
  sortedData_ref {[ 0%nat := [A_row; B_row; C_row] ]} 0%nat
    (mkSort (Some "val") asc)
  = Some ({[ 0%nat := [A_row; B_row; C_row];
             1%nat := [C_row; A_row; B_row] ]}, 1%nat).
Proof. vm_compute. reflexivity. Qed.

(** ** Pagination *)

Lemma chunks_concat (p : nat) (k : nat) (l : list record) :
  (length l ≤ k * p)%nat →
  concat (map (λ i : nat, take p (drop (i * p) l)) (seq 0 k)) = l.
Proof.
  revert l. induction k as [|k IH]; intros l Hl; simpl.
  - destruct l; [done|simpl in Hl; lia].
  - rewrite <- seq_shift, map_map.
    transitivity (take p l ++ drop p l); [|apply take_drop].
    f_equal.
    etransitivity; [|apply (IH (drop p l)); rewrite length_drop; lia].
    f_equal. apply map_ext. intros i.
    rewrite drop_drop. repeat f_equal; lia.
Qed.

Lemma totalPages_of_bounds n ps :
  0 < ps → 0 <= n →
  0 <= totalPages_of n ps ∧ n <= totalPages_of n ps * ps ∧
  (0 < n → (totalPages_of n ps - 1) * ps < n).
Proof.
  intros Hps Hn. unfold totalPages_of.
  destruct (0 <? n) eqn:H0.
  - apply Z.ltb_lt in H0.
    assert (Hq : 1 <= (n + ps - 1) / ps).
    { apply Z.div_le_lower_bound; lia. }
    rewrite Z.max_r by lia.
    pose proof (Z.div_mod (n + ps - 1) ps ltac:(lia)) as Hdm.
    pose proof (Z.mod_pos_bound (n + ps - 1) ps Hps) as Hm.
    nia.
  - apply Z.ltb_ge in H0. lia.
Qed.

Lemma clamp_in_range tp i : 0 <= i < tp → clamp tp i = i.
Proof.
  intros Hi. unfold clamp. destruct (tp <=? 0) eqn:Htp.
  - apply Z.leb_le in Htp. lia.
  - lia.
Qed.

Lemma clamp_idemp tp i : clamp tp (clamp tp i) = clamp tp i.
Proof. unfold clamp. destruct (tp <=? 0) eqn:Htp; [done|]. lia. Qed.

Lemma usePagination_ok records pageSize pageIndex :
  0 < pageSize →
  usePagination records pageSize pageIndex
  = inr (let totalCount := Z.of_nat (length records) in
         let pages := totalPages_of totalCount pageSize in
         let p := clamp pages pageIndex in
         {| pageData := slice_page records pageSize p;
            totalPages := pages;
            total := totalCount;
            startIndex := if totalCount =? 0 then 0 else p * pageSize + 1;
            endIndex := if totalCount =? 0 then 0
                        else Z.min ((p + 1) * pageSize) totalCount;
            page := p |}).
Proof.
  intros Hps. unfold usePagination.
  by rewrite (proj2 (Z.leb_gt pageSize 0) Hps).
Qed.

(** The page index the paginator reports is a clamped one. *)
Lemma usePagination_page_clamped records pageSize pageIndex pg :
  usePagination records pageSize pageIndex = inr pg →
  clamp (totalPages pg) (page pg) = page pg.
Proof.
  unfold usePagination. destruct (pageSize <=? 0); [done|].
  intros [= <-]. simpl. apply clamp_idemp.
Qed.

Lemma slice_page_nil ps p : slice_page [] ps p = [].
Proof. unfold slice_page. by rewrite drop_nil, take_nil. Qed.

Lemma slice_page_nil_iff records ps idx :
  0 < ps →
  slice_page records ps
    (clamp (totalPages_of (Z.of_nat (length records)) ps) idx) = []
  ↔ records = [].
Proof.
  intros Hps. split; [|intros ->; apply slice_page_nil].
  intros H. apply (f_equal length) in H. unfold slice_page in H.
  rewrite length_take, length_drop in H. simpl in H.
  destruct records as [|r records]; [done|exfalso].
  pose proof (totalPages_of_bounds (Z.of_nat (length (r :: records))) ps
                Hps ltac:(lia)) as (Htp0 & Hcover & Hlast).
  specialize (Hlast ltac:(simpl; lia)).
  set (tp := totalPages_of (Z.of_nat (length (r :: records))) ps) in *.
  assert (Hc : 0 <= clamp tp idx ∧ clamp tp idx <= tp - 1).
  { unfold clamp. destruct (tp <=? 0) eqn:Htp; [|lia].
    apply Z.leb_le in Htp. simpl in Hcover. nia. }
  assert (clamp tp idx * ps < Z.of_nat (length (r :: records))) by nia.
  lia.
Qed.

(** C2: for a positive page size, every page index below [totalPages]
    is served as it is, and the pages [0 .. totalPages - 1], one after the
    other, are the collection itself: nothing is left out and nothing
    comes twice. *)
Theorem pages_partition (records : list record) (pageSize : Z) :
  0 < pageSize →
  concat (all_pages records pageSize) = records ∧
  ∀ i, 0 <= i < totalPages_of (Z.of_nat (length records)) pageSize →
       ∃ p, usePagination records pageSize i = inr p ∧ page p = i ∧
            pageData p = slice_page records pageSize i.
Proof.
  intros Hps.
  pose proof (totalPages_of_bounds (Z.of_nat (length records)) pageSize
                Hps ltac:(lia)) as (Htp0 & Hcover & _).
  split.
  - unfold all_pages.
    etransitivity;
      [|apply (chunks_concat (Z.to_nat pageSize)
                 (Z.to_nat (totalPages_of (Z.of_nat (length records)) pageSize)));
        nia].
    f_equal. apply map_ext_in. intros i Hi. apply in_seq in Hi.
    rewrite usePagination_ok by done. simpl.
    rewrite clamp_in_range by lia.
    unfold slice_page. do 2 f_equal. nia.
  - intros i Hi. rewrite usePagination_ok by done.
    eexists. split; [done|]. simpl. by rewrite clamp_in_range.
Qed.

Lemma pages_partition_witness :
  concat (all_pages seven 3) = seven ∧
  ∀ i, 0 <= i < totalPages_of (Z.of_nat (length seven)) 3 →
       ∃ p, usePagination seven 3 i = inr p ∧ page p = i ∧
            pageData p = slice_page seven 3 i.
Proof. apply (pages_partition seven 3). lia. Defined.

Example all_pages_seven :
  all_pages seven 3
  = [[lamp; lamp2; fan]; [item2; item10; A_row]; [C_row]].
Proof. reflexivity. Qed.

(** Seven records, three to a page: three pages, the first shown as
    "1-3 of 7", the last as "7-7 of 7". *)
Example usePagination_seven :
  usePagination seven 3 0
  = inr (mkPagination [lamp; lamp2; fan] 3 7 1 3 0) ∧
  usePagination seven 3 2 = inr (mkPagination [C_row] 3 7 7 7 2) ∧
  hasLast 2 3 = false ∧ nextPage 3 2 = 2.
Proof. by repeat split. Qed.

(** The collection shrinks to two records while page 2 is shown: the
    page index falls back to 0. *)
Example usePagination_shrunk :
  usePagination [lamp; lamp2] 3 2 = inr (mkPagination [lamp; lamp2] 1 2 1 2 0).
Proof. reflexivity. Qed.

(** ** Navigation *)

(** C7: on a page index that clamping leaves as it is, [hasFirst] says
    [page > 0] and [hasLast] says [page < totalPages - 1]; when [hasLast]
    is false [nextPage] keeps the page index, and when [hasFirst] is false
    [prevPage] keeps it.  Every render of the component computes its two
    flags from such a page index, the one the paginator reports. *)
Theorem navigation_flags :
  (∀ totalPages page,
     clamp totalPages page = page →
     (hasFirst page = true ↔ 0 < page) ∧
     (hasLast page totalPages = true ↔ page < totalPages - 1) ∧
     (hasLast page totalPages = false → nextPage totalPages page = page) ∧
     (hasFirst page = false → prevPage totalPages page = page)) ∧
  (∀ props st v,
     DataTable props st = inr v →
     let pg := view_pagination v in
     clamp (totalPages pg) (page pg) = page pg ∧
     view_hasFirst v = hasFirst (page pg) ∧
     view_hasLast v = hasLast (page pg) (totalPages pg)).
Proof.
  split.
  - intros totalPages page.
    unfold hasFirst, hasLast, nextPage, prevPage, clamp. intros Hp.
    split; [apply Z.ltb_lt|]. split; [apply Z.ltb_lt|].
    destruct (totalPages <=? 0) eqn:Htp.
    + split; intros _; lia.
    + apply Z.leb_gt in Htp. split; intros H%Z.ltb_ge; lia.
  - intros props st v Hv. unfold DataTable in Hv.
    destruct (usePagination _ _ _) as [e|pg] eqn:Hpg; [done|].
    injection Hv as <-. simpl.
    split; [by eapply usePagination_page_clamped|done].
Qed.

Lemma navigation_flags_witness :
  (nextPage 3 2 = 2 ∧ prevPage 3 0 = 0) ∧
  ∃ v, DataTable (mkProps twice (Some seven) [] (Some 3)) (mkState "" initialSort 2)
       = inr v ∧
       clamp (totalPages (view_pagination v)) (page (view_pagination v))
       = page (view_pagination v) ∧
       view_hasFirst v = true ∧ view_hasLast v = false.
Proof.
  split.
  - split.
    + apply (proj1 navigation_flags 3 2 eq_refl); reflexivity.
    + apply (proj1 navigation_flags 3 0 eq_refl); reflexivity.
  - eexists. split; [reflexivity|].
    apply (proj2 navigation_flags
             (mkProps twice (Some seven) [] (Some 3))
             (mkState "" initialSort 2) _ eq_refl).
Defined.

(** ** Search *)





(** What [selects] picks is determined by the predicate and the list. *)
Lemma selects_unique P l l1 l2 : selects P l l1 → selects P l l2 → l1 = l2.
Proof.
  intros H1. revert l2. induction H1; intros l2 H2; inversion H2; subst;
    try done; f_equal; auto.
Qed.

Lemma useSearch_nil fields term : useSearch [] fields term = [].
Proof. unfold useSearch, searchFilter. by destruct (String.eqb term ""). Qed.



Example searchFilter_lamp :
  searchFilter [lamp; lamp2; fan] "lamp" ["name"%string] = [lamp; lamp2].
Proof. reflexivity. Qed.

(** ** [DataTable] *)

(** A render that raises nothing had a positive page size. *)
Lemma DataTable_inr_pageSize props st v :
  DataTable props st = inr v → 0 < default 50 (pageSize props).
Proof.
  unfold DataTable, usePagination.
  destruct (default 50 (pageSize props) <=? 0) eqn:Hps; [done|].
  intros _. by apply Z.leb_gt.
Qed.

(** Every render shows a clamped page index. *)
Lemma DataTable_page_clamped props st v :
  DataTable props st = inr v →
  clamp (totalPages (view_pagination v)) (page (view_pagination v))
  = page (view_pagination v).
Proof.
  unfold DataTable.
  destruct (usePagination _ _ _) as [e|pg] eqn:Hpg; [done|].
  intros [= <-]. simpl. by eapply usePagination_page_clamped.
Qed.

(** C8 (as amended): the first render raises a configuration error
    exactly when the page size is not positive; the column keys are not
    compared, and with a positive page size every column gets its header,
    columns sharing a key included. *)
Theorem DataTable_configuration (props : Props) (st : TableState) :
  (default 50 (pageSize props) <= 0 →
   DataTable props st = inl ConfigurationError) ∧
  (0 < default 50 (pageSize props) →
   ∃ v, DataTable props st = inr v ∧ view_header v = columns props).
Proof.
  unfold DataTable. split; intros Hps.
  - unfold usePagination. by rewrite (proj2 (Z.leb_le _ 0) Hps).
  - rewrite usePagination_ok by done. eauto.
Qed.

Lemma DataTable_configuration_witness :
  DataTable (mkProps twice None [] (Some 0)) initialState
  = inl ConfigurationError ∧
  ∃ v, DataTable (mkProps twice None [] None) initialState = inr v ∧
       view_header v = twice.
Proof.
  split.
  - apply (proj1 (DataTable_configuration
                    (mkProps twice None [] (Some 0)) initialState)).
    simpl. lia.
  - apply (proj2 (DataTable_configuration
                    (mkProps twice None [] None) initialState)).
    simpl. lia.
Defined.

(** C8 as stated fails: two columns with the same key and the default
    page size are rendered without an error. *)
Lemma DataTable_accepts_duplicate_keys :
  ¬ NoDup (col_key <$> twice) ∧
  DataTable (mkProps twice (Some [lamp; fan]) ["name"%string] None)
    initialState ≠ inl ConfigurationError.
Proof.
  split; [|discriminate].
  intros H. apply NoDup_cons in H as [H _]. apply H. left.
Qed.

(** C10: a [data] that is null or undefined is rendered as the empty
    collection is; with a positive page size the render raises nothing;
    in a render of null or undefined [data] the raw, filtered, sorted and
    page collections are empty and the message is 'No data available'.
    In every render that message is shown exactly when the raw collection
    is empty, and 'No results match your filters' exactly when the raw
    collection is not empty and the search has left nothing of it. *)
Theorem DataTable_null_data :
  (∀ props st,
     data props = None →
     DataTable props st = DataTable (with_data props (Some [])) st) ∧
  (∀ props st,
     0 < default 50 (pageSize props) → ∃ v, DataTable props st = inr v) ∧
  (∀ props st v,
     DataTable props st = inr v →
     view_safeData v = default [] (data props) ∧
     (data props = None →
      view_safeData v = [] ∧ view_filteredData v = [] ∧
      view_sortedData v = [] ∧ pageData (view_pagination v) = [] ∧
      total (view_pagination v) = 0 ∧
      view_emptyMessage v = Some "No data available"%string) ∧
     (view_emptyMessage v = Some "No data available"%string
      ↔ view_safeData v = []) ∧
     (view_emptyMessage v = Some "No results match your filters"%string
      ↔ view_safeData v ≠ [] ∧ view_filteredData v = [])).
Proof.
  split; [|split].
  - intros props st Hdata. unfold DataTable, with_data. simpl.
    by rewrite Hdata.
  - intros props st Hps. unfold DataTable.
    rewrite usePagination_ok by done. eauto.
  - intros props st v Hv.
    pose proof (DataTable_inr_pageSize _ _ _ Hv) as Hps.
    unfold DataTable in Hv. rewrite usePagination_ok in Hv by done.
    injection Hv as <-. simpl. split; [done|].
    set (safe := default [] (data props)).
    set (filtered := useSearch safe (searchFields props) (searchTerm st)).
    assert (Hpage :
      slice_page (sortedData filtered (sort st)) (default 50 (pageSize props))
        (clamp (totalPages_of
                  (Z.of_nat (length (sortedData filtered (sort st))))
                  (default 50 (pageSize props))) (pageIndex st)) = []
      ↔ filtered = []).
    { rewrite slice_page_nil_iff by done. apply sortedData_nil_iff. }
    assert (Hsafe : safe = [] → filtered = []).
    { intros ->. apply useSearch_nil. }
    split.
    { intros Hdata. assert (Hs : safe = []) by (unfold safe; by rewrite Hdata).
      pose proof (Hsafe Hs) as Hf. rewrite Hf, Hs, sortedData_nil.
      rewrite slice_page_nil. by repeat split. }
    destruct (slice_page _ _ _) as [|r page] eqn:Hslice; simpl.
    + pose proof (proj1 Hpage eq_refl) as Hf. clear Hpage.
      destruct safe as [|x safe]; simpl; (split; split); try done.
      all: try (intros [? ?]; done).
    + assert (Hf : filtered ≠ []) by (intros Hf; by apply Hpage in Hf).
      clear Hpage. (split; split); try done.
      * intros Hs. by apply Hsafe in Hs.
      * intros [? ?]. done.
Qed.

Lemma DataTable_null_data_witness :
  DataTable (mkProps twice None ["name"%string] (Some 3))
    (mkState "lamp" (mkSort (Some "name") desc) 2)
  = DataTable (mkProps twice (Some []) ["name"%string] (Some 3))
      (mkState "lamp" (mkSort (Some "name") desc) 2) ∧
  ∃ v, DataTable (mkProps twice None ["name"%string] (Some 3))
         (mkState "lamp" (mkSort (Some "name") desc) 2) = inr v ∧
       view_safeData v = [] ∧ view_filteredData v = [] ∧
       view_sortedData v = [] ∧ pageData (view_pagination v) = [] ∧
       total (view_pagination v) = 0 ∧
       view_emptyMessage v = Some "No data available"%string.
Proof.
  split.
  - apply (proj1 DataTable_null_data
             (mkProps twice None ["name"%string] (Some 3))).
    reflexivity.
  - destruct (proj1 (proj2 DataTable_null_data)
                (mkProps twice None ["name"%string] (Some 3))
                (mkState "lamp" (mkSort (Some "name") desc) 2) eq_refl)
      as [v Hv].
    exists v. split; [exact Hv|].
    apply (proj2 (proj2 DataTable_null_data) _ _ v Hv). reflexivity.
Defined.

(** A search that leaves nothing of a collection that is not empty. *)
Example DataTable_no_results :
  ∃ v, DataTable (mkProps twice (Some [lamp; fan]) ["name"%string] None)
         (mkState "heater" initialSort 0) = inr v ∧
       view_emptyMessage v = Some "No results match your filters"%string.
Proof. eexists. split; reflexivity. Qed.

(** * Part IV: further properties of the component *)

(** ** More on the stable sort *)

Section ArraySortOrder.
Context {A : Type} (comparefn : A → A → number).

Local Abbreviation cmp := (SortCompare comparefn).
Local Abbreviation ins := (insert_sorted comparefn).
Local Abbreviation srt := (Array_sort comparefn).

(** An element passes the elements it compares greater than. *)
Lemma insert_sorted_pass x l1 l2 :
  Forall (λ y, 0 < cmp x y) l1 → ins x (l1 ++ l2) = l1 ++ ins x l2.
Proof.
  induction 1 as [|y l1 Hy _ IH]; simpl; [done|].
  rewrite (proj2 (Z.leb_gt _ _) Hy). by rewrite IH.
Qed.

(** An element stops in front of elements it does not compare greater
    than. *)
Lemma insert_sorted_stop x l :
  Forall (λ y, cmp x y <= 0) l → ins x l = x :: l.
Proof.
  destruct 1 as [|y l Hy _]; simpl; [done|].
  by rewrite (proj2 (Z.leb_le _ _) Hy).
Qed.

Lemma insert_sorted_before x l1 l2 :
  Forall (λ y, cmp x y <= 0) l2 → ins x (l1 ++ l2) = ins x l1 ++ l2.
Proof.
  intros H2. induction l1 as [|y l1 IH]; simpl.
  - by apply insert_sorted_stop.
  - destruct (cmp x y <=? 0); [done|]. by rewrite IH.
Qed.

Lemma insert_sorted_split x l :
  ∃ l1 l2, l = l1 ++ l2 ∧ ins x l = l1 ++ x :: l2 ∧
           Forall (λ y, 0 < cmp x y) l1.
Proof.
  induction l as [|y l (l1 & l2 & -> & Hins & Hl1)]; simpl.
  - by exists [], [].
  - destruct (cmp x y <=? 0) eqn:Hxy.
    + by exists [], (y :: l1 ++ l2).
    + apply Z.leb_gt in Hxy. exists (y :: l1), l2.
      rewrite Hins. split; [done|]. split; [done|]. by constructor.
Qed.

Section Classes.
(** A class of elements that tie with one another keeps its order. *)
Context (same : A → Prop) `{!∀ x, Decision (same x)}.
Hypothesis same_tie : ∀ x y, same x → same y → cmp x y <= 0.

Lemma filter_insert_sorted x l :
  filter same (ins x l)
  = if decide (same x) then x :: filter same l else filter same l.
Proof.
  destruct (insert_sorted_split x l) as (l1 & l2 & -> & -> & Hl1).
  rewrite !filter_app, filter_cons. case_decide as Hx; [|done].
  assert (Hnone : filter same l1 = []).
  { clear -Hl1 Hx same_tie. induction Hl1 as [|y l1 Hy _ IH]; [done|].
    rewrite filter_cons. case_decide as Hsy; [|done].
    specialize (same_tie x y Hx Hsy). lia. }
  by rewrite Hnone.
Qed.

Lemma filter_Array_sort l : filter same (srt l) = filter same l.
Proof.
  induction l as [|x l IH]; [done|].
  rewrite Array_sort_cons, filter_insert_sorted, filter_cons, IH. done.
Qed.
End Classes.

Section Ordered.
(** On elements the comparison orders consistently, the result is in
    order between any two positions. *)
Context (P : A → Prop).
Hypothesis cmp_asym : ∀ x y, 0 < cmp x y → cmp y x <= 0.
Hypothesis cmp_trans :
  ∀ x y z, P x → P y → P z → cmp x y <= 0 → cmp y z <= 0 → cmp x z <= 0.

Lemma insert_sorted_StronglySorted x l :
  P x → Forall P l →
  StronglySorted (λ a b, cmp a b <= 0) l →
  StronglySorted (λ a b, cmp a b <= 0) (ins x l).
Proof.
  intros Hx. induction l as [|y l IH]; intros HP Hl; simpl.
  - by repeat constructor.
  - apply Forall_cons in HP as [Hy HP].
    apply StronglySorted_cons in Hl as [Hyl Hl].
    destruct (cmp x y <=? 0) eqn:Hxy.
    + apply Z.leb_le in Hxy. constructor; [by constructor|].
      constructor; [done|].
      rewrite Forall_forall in Hyl, HP |- *.
      intros z Hz. eapply (cmp_trans x y z); eauto.
    + apply Z.leb_gt in Hxy. constructor; [by apply IH|].
      rewrite insert_sorted_perm. constructor; [by apply cmp_asym|done].
Qed.

Lemma Array_sort_StronglySorted l :
  Forall P l → StronglySorted (λ a b, cmp a b <= 0) (srt l).
Proof.
  induction l as [|x l IH]; intros HP; [constructor|].
  apply Forall_cons in HP as [Hx HP]. rewrite Array_sort_cons.
  apply insert_sorted_StronglySorted; [done| |by apply IH].
  by rewrite Array_sort_perm.
Qed.
End Ordered.

Section Tail.
(** The elements the comparison sends behind all others form the tail
    of the result, in their order; the others are sorted among
    themselves. *)
Context (last : A → bool).
Hypothesis last_after : ∀ x y, last x = true → last y = false → 0 < cmp x y.
Hypothesis before_last : ∀ x y, last x = false → last y = true → cmp x y < 0.
Hypothesis last_tie : ∀ x y, last x = true → last y = true → cmp x y <= 0.

Lemma Array_sort_tail l :
  srt l = srt (filter (λ x, last x = false) l)
          ++ filter (λ x, last x = true) l.
Proof.
  induction l as [|x l IH]; [done|].
  rewrite Array_sort_cons, IH, !filter_cons.
  assert (Hfront : Forall (λ y, last y = false)
                     (srt (filter (λ x, last x = false) l))).
  { rewrite Array_sort_perm. apply Forall_forall. intros y Hy.
    by apply list_elem_of_filter in Hy as [? _]. }
  assert (Hback : Forall (λ y, last y = true)
                    (filter (λ x, last x = true) l)).
  { apply Forall_forall. intros y Hy.
    by apply list_elem_of_filter in Hy as [? _]. }
  destruct (last x) eqn:Hx; simpl.
  - rewrite insert_sorted_pass, insert_sorted_stop; [done| |].
    + eapply Forall_impl; [exact Hback|]. intros y Hy. by apply last_tie.
    + eapply Forall_impl; [exact Hfront|]. intros y Hy. by apply last_after.
  - apply insert_sorted_before.
    eapply Forall_impl; [exact Hback|]. intros y Hy.
    specialize (before_last _ _ Hx Hy). lia.
Qed.
End Tail.
End ArraySortOrder.

Lemma StronglySorted_lookup {A} (R : relation A) l i j x y :
  StronglySorted R l → (i < j)%nat →
  l !! i = Some x → l !! j = Some y → R x y.
Proof.
  intros Hl. revert i j. induction Hl as [|z l Hl IH Hz]; intros i j Hij Hi Hj.
  - done.
  - destruct j as [|j]; [lia|]. destruct i as [|i]; simpl in *.
    + injection Hi as ->. rewrite Forall_forall in Hz.
      eapply Hz, list_elem_of_lookup_2; eauto.
    + eapply (IH i j); eauto. lia.
Qed.

(** ** More on the collation *)

Lemma collate_refl xs : collate xs xs = Eq.
Proof.
  induction xs as [|x xs IH]; simpl; [done|].
  by rewrite weight_compare_refl.
Qed.

Lemma localeCompare_refl s : localeCompare s s = Fin 0.
Proof. unfold localeCompare. by rewrite collate_refl. Qed.

Lemma weight_compare_spec a b :
  CompareSpec (a = b) (weight_lt a b) (weight_lt b a) (weight_compare a b).
Proof.
  destruct a as [a1 a2], b as [b1 b2]. unfold weight_compare, weight_lt.
  simpl. destruct (N.compare_spec a1 b1) as [->| |]; try (constructor; lia).
  destruct (N.compare_spec a2 b2) as [->| |]; constructor;
    (done || lia).
Qed.

Lemma collate_le_trans xs ys zs :
  collate xs ys ≠ Gt → collate ys zs ≠ Gt → collate xs zs ≠ Gt.
Proof.
  revert ys zs. induction xs as [|x xs IH]; intros [|y ys] [|z zs];
    simpl; try done.
  destruct (weight_compare_spec (weight x) (weight y)) as [Hxy|Hxy|Hxy],
    (weight_compare_spec (weight y) (weight z)) as [Hyz|Hyz|Hyz],
    (weight_compare_spec (weight x) (weight z)) as [Hxz|Hxz|Hxz];
    try done; try (by apply IH);
    unfold weight_lt in *;
    destruct (weight x) as [x1 x2], (weight y) as [y1 y2],
      (weight z) as [z1 z2]; simpl in *; simplify_eq; lia.
Qed.

(** ** More on the comparison function *)

Lemma compareRows_tie k d a b :
  get a k = get b k → SortCompare (compareRows k d) a b = 0.
Proof.
  unfold SortCompare, compareRows. intros ->.
  destruct (is_nullish (get b k)) eqn:Hb; cbn [andb]; [done|].
  destruct (typeof_number (get b k)) eqn:Hn; cbn [andb].
  - destruct (get b k) as [| |[|z]| | |]; try discriminate.
    + by destruct d.
    + destruct d; simpl; lia.
  - unfold localeCompare. rewrite collate_refl. destruct d; reflexivity.
Qed.

Lemma compareRows_null_tie k d a b :
  is_nullish (get a k) = true → is_nullish (get b k) = true →
  SortCompare (compareRows k d) a b <= 0.
Proof. unfold SortCompare, compareRows. by intros -> ->. Qed.

Lemma SortCompare_compareRows_asym k d a b :
  0 < SortCompare (compareRows k d) a b →
  SortCompare (compareRows k d) b a <= 0.
Proof. rewrite (SortCompare_compareRows_antisym k d a b). lia. Qed.

(** On a column of numbers the comparison is the order of the numbers,
    with the rows that have none behind. *)
Lemma SortCompare_numbers k d a b :
  number_or_nothing k a → number_or_nothing k b →
  SortCompare (compareRows k d) a b <= 0 ↔
  is_nullish (get b k) = true ∨
  (is_nullish (get a k) = false ∧
   match d with
   | asc => number_at k a <= number_at k b
   | desc => number_at k b <= number_at k a
   end).
Proof.
  unfold number_or_nothing, number_at, SortCompare, compareRows.
  intros [Ha|[x Ha]] [Hb|[y Hb]].
  - rewrite Ha, Hb. simpl. naive_solver.
  - rewrite Ha, Hb. simpl. split; [lia|]. intros [|[? _]]; done.
  - rewrite Ha, Hb. simpl. split; [by left|lia].
  - rewrite Ha, Hb. simpl. destruct d; simpl;
      (split; [intros ?; right; split; [done|lia]|intros [|[_ ?]]; [done|lia]]).
Qed.

(** On a column of strings it is the collation, with the rows that have
    none behind. *)
Lemma SortCompare_strings k d a b :
  string_or_nothing k a → string_or_nothing k b →
  SortCompare (compareRows k d) a b <= 0 ↔
  is_nullish (get b k) = true ∨
  (is_nullish (get a k) = false ∧
   match d with
   | asc =>
       collate (tokens None (ToString (get a k)))
         (tokens None (ToString (get b k))) ≠ Gt
   | desc =>
       collate (tokens None (ToString (get b k)))
         (tokens None (ToString (get a k))) ≠ Gt
   end).
Proof.
  unfold string_or_nothing, SortCompare, compareRows.
  intros [Ha|[s Ha]] [Hb|[t Hb]].
  - rewrite Ha, Hb. simpl. naive_solver.
  - rewrite Ha, Hb. simpl. split; [lia|]. intros [|[? _]]; done.
  - rewrite Ha, Hb. simpl. split; [by left|lia].
  - rewrite Ha, Hb. simpl. unfold localeCompare.
    rewrite (collate_antisym (tokens None s) (tokens None t)).
    destruct d, (collate (tokens None s) (tokens None t)); simpl;
      (split; [intros ?; (right; split; [done|done]) || lia
              |intros [|[_ ?]]; (done || lia)]).
Qed.

Lemma compareRows_numbers_trans k d x y z :
  number_or_nothing k x → number_or_nothing k y → number_or_nothing k z →
  SortCompare (compareRows k d) x y <= 0 →
  SortCompare (compareRows k d) y z <= 0 →
  SortCompare (compareRows k d) x z <= 0.
Proof.
  intros Hx Hy Hz. rewrite !SortCompare_numbers by done.
  intros [Hny|[Hvx Hxy]] [Hnz|[Hvy Hyz]]; try by left.
  - congruence.
  - right. split; [done|]. destruct d; lia.
Qed.

Lemma compareRows_strings_trans k d x y z :
  string_or_nothing k x → string_or_nothing k y → string_or_nothing k z →
  SortCompare (compareRows k d) x y <= 0 →
  SortCompare (compareRows k d) y z <= 0 →
  SortCompare (compareRows k d) x z <= 0.
Proof.
  intros Hx Hy Hz. rewrite !SortCompare_strings by done.
  intros [Hny|[Hvx Hxy]] [Hnz|[Hvy Hyz]]; try by left.
  - congruence.
  - right. split; [done|].
    destruct d; eapply collate_le_trans; eauto.
Qed.

Lemma StronglySorted_impl_elem_of {A} (R R' : relation A) l :
  StronglySorted R l →
  (∀ x y, x ∈ l → y ∈ l → R x y → R' x y) →
  StronglySorted R' l.
Proof.
  induction 1 as [|x l Hl IH Hx]; intros Himpl; constructor.
  - apply IH. intros y z Hy Hz. apply Himpl; by right.
  - rewrite Forall_forall in Hx |- *. intros y Hy.
    apply Himpl; [left|by right|by apply Hx].
Qed.

Lemma StronglySorted_strict {A} (f : A → Z) l :
  StronglySorted (λ x y, f x <= f y) l → NoDup (f <$> l) →
  StronglySorted (λ x y, f x < f y) l.
Proof.
  induction 1 as [|x l Hl IH Hx]; intros Hnd; constructor.
  - apply IH. by apply NoDup_cons in Hnd as [_ ?].
  - apply NoDup_cons in Hnd as [Hnot _].
    rewrite Forall_forall in Hx |- *. intros y Hy.
    specialize (Hx y Hy).
    assert (f x ≠ f y); [|lia].
    intros Heq. apply Hnot. rewrite Heq. by apply list_elem_of_fmap_2.
Qed.

(** ** Order of the sorted collection *)

Lemma sortedData_tail rows k d :
  k ≠ ""%string →
  sortedData rows (mkSort (Some k) d)
  = sortedData (filter (valued k) rows) (mkSort (Some k) d)
    ++ filter (λ r, is_nullish (get r k) = true) rows.
Proof.
  intros Hk. rewrite !sortedData_with_key by done.
  apply (Array_sort_tail (compareRows k d) (λ r, is_nullish (get r k))).
  - intros; by apply compareRows_null_after.
  - intros; by apply compareRows_before_null.
  - intros; by apply compareRows_null_tie.
Qed.

(** X1: with a sort key that is not empty, on a column that holds
    numbers other than NaN, or strings, besides nothing, the sorted
    collection is the sorted valued records followed by the records
    without a value, these in the order they had; the direction plays no
    part in that tail. *)
Theorem sortedData_valued_then_rest rows k d :
  k ≠ ""%string →
  Forall (number_or_nothing k) rows ∨ Forall (string_or_nothing k) rows →
  sortedData rows (mkSort (Some k) d)
  = sortedData (filter (valued k) rows) (mkSort (Some k) d)
    ++ filter (λ r, is_nullish (get r k) = true) rows ∧
  drop (length (filter (valued k) rows)) (sortedData rows (mkSort (Some k) asc))
  = drop (length (filter (valued k) rows))
      (sortedData rows (mkSort (Some k) desc)).
Proof.
  intros Hk _. split; [by apply sortedData_tail|].
  rewrite (sortedData_tail rows k asc), (sortedData_tail rows k desc) by done.
  rewrite !drop_app_length'; [done|..];
    by rewrite (Permutation_length (sortedData_perm _ _)).
Qed.

Lemma sortedData_valued_then_rest_witness :
  sortedData [B_row; A_row; [("val", VUndefined)]; C_row]
    (mkSort (Some "val") desc)
  = [A_row; C_row] ++ [B_row; [("val", VUndefined)]].
Proof.
  apply (proj1 (sortedData_valued_then_rest
                  [B_row; A_row; [("val", VUndefined)]; C_row] "val" desc
                  ltac:(discriminate)
                  ltac:(left;
                        apply Forall_cons; split; [by left|];
                        apply Forall_cons; split; [right; by eexists|];
                        apply Forall_cons; split; [by left|];
                        apply Forall_cons; split; [right; by eexists|];
                        constructor))).
Defined.

(** X2: the sort is stable on equal values: on a column that holds
    numbers other than NaN, or strings, besides nothing, the records that
    hold one and the same value in the sort column stand in the sorted
    collection in the order they had, in both directions. *)
Theorem sortedData_keeps_order_of_equals rows k d v :
  Forall (number_or_nothing k) rows ∨ Forall (string_or_nothing k) rows →
  filter (λ r, get r k = v) (sortedData rows (mkSort (Some k) d))
  = filter (λ r, get r k = v) rows.
Proof.
  intros _. unfold sortedData. simpl. destruct (String.eqb k ""); [done|].
  apply filter_Array_sort. intros x y Hx Hy.
  rewrite (compareRows_tie k d x y); [done|congruence].
Qed.

Lemma sortedData_keeps_order_of_equals_witness :
  filter (λ r, get r "name" = VString "Lamp")
    (sortedData [lamp; fan; ("id", VNumber (Fin 7)) :: lamp]
       (mkSort (Some "name") asc))
  = [lamp; ("id", VNumber (Fin 7)) :: lamp].
Proof.
  apply (sortedData_keeps_order_of_equals
           [lamp; fan; ("id", VNumber (Fin 7)) :: lamp] "name" asc
           (VString "Lamp")).
  right. repeat (apply Forall_cons; split; [right; by eexists|]). constructor.
Defined.

(** X3: on a column that holds numbers other than NaN, or nothing, the
    valued records of the sorted collection carry their numbers in
    non-decreasing order when ascending and in non-increasing order when
    descending, between any two positions. *)
Theorem sortedData_numbers_in_order rows k d i j x y :
  k ≠ ""%string → Forall (number_or_nothing k) rows → (i < j)%nat →
  sortedData rows (mkSort (Some k) d) !! i = Some x →
  sortedData rows (mkSort (Some k) d) !! j = Some y →
  valued k x → valued k y →
  match d with
  | asc => number_at k x <= number_at k y
  | desc => number_at k y <= number_at k x
  end.
Proof.
  intros Hk Hrows Hij Hi Hj Hx Hy.
  rewrite sortedData_with_key in Hi, Hj by done.
  assert (Hsorted :
    StronglySorted (λ a b, SortCompare (compareRows k d) a b <= 0)
      (Array_sort (compareRows k d) rows)).
  { apply (Array_sort_StronglySorted _ (number_or_nothing k)); [| |done].
    - apply SortCompare_compareRows_asym.
    - apply compareRows_numbers_trans. }
  pose proof (StronglySorted_lookup _ _ _ _ _ _ Hsorted Hij Hi Hj) as Hle.
  assert (Hin : ∀ r, r ∈ Array_sort (compareRows k d) rows →
                     number_or_nothing k r).
  { intros r Hr. rewrite Array_sort_perm in Hr.
    by eapply Forall_forall in Hrows. }
  apply SortCompare_numbers in Hle;
    [|by eapply Hin, list_elem_of_lookup_2..].
  unfold valued in *. destruct Hle as [Hn|[_ Hle]]; [congruence|done].
Qed.

Lemma sortedData_numbers_in_order_witness :
  number_at "val" C_row <= number_at "val" A_row.
Proof.
  apply (sortedData_numbers_in_order [A_row; B_row; C_row] "val" asc
           0 1 C_row A_row); try reflexivity; try discriminate; try lia.
  apply Forall_cons; split; [right; by eexists|].
  apply Forall_cons; split; [by left|].
  apply Forall_cons; split; [right; by eexists|]. constructor.
Defined.

Lemma plain_or_nothing_string k r : plain_or_nothing k r → string_or_nothing k r.
Proof. intros [?|(s & ? & _)]; [by left|right; by exists s]. Qed.

(** X4: on a column that holds strings of printable characters, or
    nothing, the valued records of the sorted collection are in collation
    order between any two positions: a record never stands in front of
    one whose string collates before its own (after it, when
    descending). *)
Theorem sortedData_strings_in_order rows k d i j x y s t :
  k ≠ ""%string → Forall (plain_or_nothing k) rows → (i < j)%nat →
  sortedData rows (mkSort (Some k) d) !! i = Some x →
  sortedData rows (mkSort (Some k) d) !! j = Some y →
  get x k = VString s → get y k = VString t →
  ∃ z, directed d (localeCompare s t) = Fin z ∧ z <= 0.
Proof.
  intros Hk Hrows Hij Hi Hj Hx Hy.
  rewrite sortedData_with_key in Hi, Hj by done.
  assert (Hsorted :
    StronglySorted (λ a b, SortCompare (compareRows k d) a b <= 0)
      (Array_sort (compareRows k d) rows)).
  { apply (Array_sort_StronglySorted _ (string_or_nothing k)).
    - apply SortCompare_compareRows_asym.
    - apply compareRows_strings_trans.
    - eapply Forall_impl; [exact Hrows|]. apply plain_or_nothing_string. }
  pose proof (StronglySorted_lookup _ _ _ _ _ _ Hsorted Hij Hi Hj) as Hle.
  unfold SortCompare, compareRows in Hle. rewrite Hx, Hy in Hle.
  simpl in Hle. unfold directed.
  destruct d; simpl in *; eexists; split; try reflexivity; done.
Qed.

Lemma sortedData_strings_in_order_witness :
  ∃ z, directed asc (localeCompare "living_room" "living-room") = Fin z ∧
       z <= 0.
Proof.
  apply (sortedData_strings_in_order
           [[("name", VString "living-room")]; lamp;
            [("name", VString "living_room")]] "name" asc
           1 2 [("name", VString "living_room")]
           [("name", VString "living-room")]);
    try reflexivity; try discriminate; try lia.
  repeat (apply Forall_cons; split; [right; eexists; by split|]). constructor.
Defined.

(** X5: on a column of numbers that are pairwise different, the
    descending collection is the ascending one with its valued records in
    reverse order; the records without a value stay behind, as they
    were. *)
Theorem sortedData_descending_reverses rows k :
  k ≠ ""%string → Forall (number_or_nothing k) rows →
  NoDup (number_at k <$> filter (valued k) rows) →
  sortedData rows (mkSort (Some k) desc)
  = reverse (sortedData (filter (valued k) rows) (mkSort (Some k) asc))
    ++ filter (λ r, is_nullish (get r k) = true) rows.
Proof.
  intros Hk Hrows Hnd.
  rewrite (sortedData_tail rows k desc Hk). f_equal.
  rewrite !sortedData_with_key by done.
  set (V := filter (valued k) rows) in *.
  assert (HV : Forall (number_or_nothing k) V).
  { apply Forall_forall. intros r Hr. apply list_elem_of_filter in Hr as [_ Hr].
    by eapply Forall_forall in Hrows. }
  assert (Hval : ∀ r, r ∈ V → is_nullish (get r k) = false).
  { intros r Hr. by apply list_elem_of_filter in Hr as [? _]. }
  assert (Hsorted : ∀ d,
    StronglySorted (λ a b, SortCompare (compareRows k d) a b <= 0)
      (Array_sort (compareRows k d) V)).
  { intros d. apply (Array_sort_StronglySorted _ (number_or_nothing k));
      [apply SortCompare_compareRows_asym
      |apply compareRows_numbers_trans|done]. }
  assert (Hle : ∀ d a b,
    a ∈ Array_sort (compareRows k d) V → b ∈ Array_sort (compareRows k d) V →
    SortCompare (compareRows k d) a b <= 0 →
    match d with
    | asc => number_at k a <= number_at k b
    | desc => number_at k b <= number_at k a
    end).
  { intros d a b Ha Hb Hab. rewrite Array_sort_perm in Ha, Hb.
    apply SortCompare_numbers in Hab;
      [|by eapply Forall_forall in HV..].
    destruct Hab as [Hn|[_ Hab]]; [|done].
    rewrite (Hval b Hb) in Hn. done. }
  assert (Transitive (λ a b : record, number_at k b < number_at k a))
    by (intros ? ? ? ? ?; lia).
  assert (AntiSymm eq (λ a b : record, number_at k b < number_at k a))
    by (intros ? ? ? ?; lia).
  eapply (StronglySorted_unique (λ a b, number_at k b < number_at k a)).
  - apply (StronglySorted_impl_elem_of
             (λ a b, - number_at k a < - number_at k b)); [|intros; lia].
    apply (StronglySorted_strict (λ r, - number_at k r)).
    + eapply StronglySorted_impl_elem_of; [apply (Hsorted desc)|].
      intros a b Ha Hb Hab. specialize (Hle desc a b Ha Hb Hab).
      simpl in Hle. lia.
    + rewrite Array_sort_perm.
      replace ((λ r, - number_at k r) <$> V)
        with (Z.opp <$> (number_at k <$> V))
        by (by rewrite <- list_fmap_compose).
      assert (Inj eq eq Z.opp) by (intros ? ? ?; lia).
      by apply (NoDup_fmap_2 Z.opp).
  - apply (Sorted_StronglySorted (λ a b, number_at k b < number_at k a)).
    apply (Sorted_reverse (λ a b, number_at k a < number_at k b)).
    apply Sorted.StronglySorted_Sorted.
    apply (StronglySorted_strict (number_at k)).
    + eapply StronglySorted_impl_elem_of; [apply (Hsorted asc)|].
      intros a b Ha Hb Hab. apply (Hle asc a b Ha Hb Hab).
    + by rewrite Array_sort_perm.
  - by rewrite reverse_Permutation, !Array_sort_perm.
Qed.

Lemma sortedData_descending_reverses_witness :
  sortedData [A_row; B_row; C_row] (mkSort (Some "val") desc)
  = reverse (sortedData (filter (valued "val") [A_row; B_row; C_row])
               (mkSort (Some "val") asc))
    ++ filter (λ r, is_nullish (get r "val") = true) [A_row; B_row; C_row].
Proof.
  apply (sortedData_descending_reverses [A_row; B_row; C_row] "val").
  - discriminate.
  - apply Forall_cons; split; [right; by eexists|].
    apply Forall_cons; split; [by left|].
    apply Forall_cons; split; [right; by eexists|]. constructor.
  - apply (bool_decide_unpack (NoDup (number_at "val" <$>
             filter (valued "val") [A_row; B_row; C_row]))).
    vm_compute. exact I.
Defined.

(** X6: swapping the two records negates the comparison, in each
    direction; between two valued records the descending comparison is
    the ascending one with the records swapped; when a record has no
    value the direction does not enter the comparison. *)
Theorem compareRows_direction k a b :
  (∀ d, compareRows k d b a = num_neg (compareRows k d a b)) ∧
  (valued k a → valued k b →
   compareRows k desc a b = compareRows k asc b a) ∧
  (is_nullish (get a k) = true ∨ is_nullish (get b k) = true →
   compareRows k desc a b = compareRows k asc a b).
Proof.
  split; [intros d; apply compareRows_antisym|]. split.
  - intros Ha Hb. rewrite (compareRows_antisym k asc a b).
    unfold valued in *. unfold compareRows. by rewrite Ha, Hb.
  - unfold compareRows. intros [->| ->]; [done|].
    by destruct (is_nullish (get a k)).
Qed.

Lemma compareRows_direction_witness :
  compareRows "val" desc A_row C_row = compareRows "val" asc C_row A_row ∧
  compareRows "val" desc A_row B_row = compareRows "val" asc A_row B_row.
Proof.
  split.
  - apply (proj1 (proj2 (compareRows_direction "val" A_row C_row)));
      reflexivity.
  - apply (proj2 (proj2 (compareRows_direction "val" A_row B_row))).
    right. reflexivity.
Defined.

(** ** Clicks on the header *)

Lemma handleSort_key prev K : key (handleSort prev K) = Some K.
Proof. unfold handleSort. by case_decide. Qed.

Lemma handleSort_same prev K :
  key prev = Some K →
  handleSort prev K = mkSort (Some K) (opposite (direction prev)).
Proof.
  intros HK. unfold handleSort. rewrite decide_True by done.
  by destruct (direction prev).
Qed.

Lemma opposite_involutive d : opposite (opposite d) = d.
Proof. by destruct d. Qed.

(** X7: after any clicks the sort key is the column clicked last, so a
    table once sorted is never unsorted again; [n + 1] clicks in a row on
    a column that was not the sort column leave the direction ascending
    when [n] is even and descending when it is odd, and [n] clicks on the
    sort column leave the direction as it was when [n] is even and
    flipped when it is odd. *)
Theorem handleSort_clicks (prev : SortState) (K : string) :
  (∀ clicks, key (foldl handleSort prev (clicks ++ [K])) = Some K) ∧
  (∀ n, key prev ≠ Some K →
        Nat.iter (S n) (λ s, handleSort s K) prev
        = mkSort (Some K) (if Nat.even n then asc else desc)) ∧
  (∀ n, key prev = Some K →
        Nat.iter n (λ s, handleSort s K) prev
        = mkSort (Some K)
            (if Nat.even n then direction prev
             else opposite (direction prev))).
Proof.
  split; [|split].
  - intros clicks. rewrite foldl_app. simpl. apply handleSort_key.
  - intros n HK. induction n as [|n IH].
    + simpl. unfold handleSort. by rewrite decide_False.
    + rewrite Nat.iter_succ, IH, handleSort_same by done.
      rewrite Nat.even_succ, <- Nat.negb_even. simpl.
      by destruct (Nat.even n).
  - intros n HK. induction n as [|n IH].
    + simpl. destruct prev as [k d]. simpl in *. by subst.
    + rewrite Nat.iter_succ, IH, handleSort_same by done.
      rewrite Nat.even_succ, <- Nat.negb_even. simpl.
      destruct (Nat.even n); simpl; by rewrite ?opposite_involutive.
Qed.

Lemma handleSort_clicks_witness :
  Nat.iter 3 (λ s, handleSort s "name") (mkSort (Some "val") desc)
  = mkSort (Some "name") asc ∧
  Nat.iter 3 (λ s, handleSort s "name") (mkSort (Some "name") desc)
  = mkSort (Some "name") asc.
Proof.
  split.
  - apply (proj1 (proj2 (handleSort_clicks (mkSort (Some "val") desc) "name"))
             2%nat).
    discriminate.
  - apply (proj2 (proj2 (handleSort_clicks (mkSort (Some "name") desc) "name"))
             3%nat).
    reflexivity.
Defined.

(** X8: a click on the header of a column that is not sortable changes
    nothing, so that after any clicks the sort key is the key of the last
    sortable column clicked, or the key there was when none of the
    columns clicked is sortable. *)
Theorem clickHeader_clicks (s : SortState) (clicks : list Column) :
  key (foldl clickHeader s clicks)
  = match last (filter (λ c, col_sortable c = true) clicks) with
    | Some c => Some (col_key c)
    | None => key s
    end.
Proof.
  induction clicks as [|c clicks IH] using rev_ind; [done|].
  rewrite foldl_app, filter_app, filter_cons, filter_nil. simpl.
  unfold clickHeader at 1. destruct (col_sortable c) eqn:Hc.
  - rewrite decide_True by done. by rewrite last_snoc, handleSort_key.
  - rewrite decide_False by done. by rewrite app_nil_r.
Qed.

(** ** The header row *)

Lemma one_arrow_indicator s c :
  one_arrow (indicator s c) ↔
  col_sortable c = true ∧ key s = Some (col_key c).
Proof.
  unfold one_arrow, indicator, SortIndicator.
  destruct (col_sortable c).
  - destruct (bool_decide_reflect (key s = Some (col_key c))) as [Hk|Hk];
      simpl.
    + split; [done|]. intros _. case_decide; [by left|by right].
    + split; [by intros [?|?]|by intros [_ ?]].
  - split; [by intros [?|?]|by intros [? _]].
Qed.

Lemma filter_one_arrow_length s (columns : list Column) :
  NoDup (col_key <$> columns) →
  (length (filter one_arrow (indicator s <$> columns)) ≤ 1)%nat.
Proof.
  induction columns as [|c columns IH]; [simpl; lia|].
  rewrite !fmap_cons. intros [Hc Hnd]%NoDup_cons.
  rewrite filter_cons. case_decide as Harrow; [|by apply IH].
  apply one_arrow_indicator in Harrow as [_ Hkey].
  assert (Hnone : filter one_arrow (indicator s <$> columns) = []).
  { clear IH Hnd. induction columns as [|c' columns IH]; [done|].
    rewrite fmap_cons, filter_cons. rewrite fmap_cons in Hc.
    apply not_elem_of_cons in Hc as [Hne Hc].
    case_decide as Harrow; [|by apply IH].
    apply one_arrow_indicator in Harrow as [_ Hkey']. congruence. }
  rewrite Hnone. simpl. lia.
Qed.

(** X9: with column keys that are pairwise different at most one header
    shows a single arrow; with no sort key no header does; and right
    after a click on a sortable column its header shows the down arrow
    when the table was sorted ascending by that column, the up arrow
    otherwise. *)
Theorem indicator_arrows (s : SortState) (columns : list Column) :
  (NoDup (col_key <$> columns) →
   (length (filter one_arrow (indicator s <$> columns)) ≤ 1)%nat) ∧
  (key s = None → filter one_arrow (indicator s <$> columns) = []) ∧
  (∀ col, col_sortable col = true →
     indicator (clickHeader s col) col
     = Some (if decide (key s = Some (col_key col) ∧ direction s = asc)
             then DownArrow else UpArrow)).
Proof.
  split; [apply filter_one_arrow_length|]. split.
  - intros Hnone. induction columns as [|c columns IH]; [done|].
    rewrite fmap_cons, filter_cons. case_decide as Harrow; [|done].
    apply one_arrow_indicator in Harrow as [_ Hkey]. congruence.
  - intros col Hcol. unfold clickHeader, indicator. rewrite Hcol.
    rewrite handleSort_key, bool_decide_eq_true_2 by done.
    unfold handleSort, SortIndicator. simpl.
    destruct s as [k d]; simpl.
    destruct (decide (k = Some (col_key col))) as [->|Hk]; simpl.
    + destruct d; simpl.
      * by rewrite decide_True.
      * rewrite decide_False; [done|]. by intros [_ ?].
    + rewrite decide_False; [done|]. by intros [? _].
Qed.

Lemma indicator_arrows_witness :
  (length (filter one_arrow
             (indicator (mkSort (Some "name") asc)
                <$> [mkColumn "name" "Name" true; mkColumn "val" "Value" true]))
   ≤ 1)%nat ∧
  filter one_arrow (indicator initialSort <$> twice) = [] ∧
  indicator (clickHeader (mkSort (Some "name") asc)
               (mkColumn "name" "Name" true))
    (mkColumn "name" "Name" true)
  = Some DownArrow.
Proof.
  split; [|split].
  - apply (proj1 (indicator_arrows (mkSort (Some "name") asc)
                    [mkColumn "name" "Name" true; mkColumn "val" "Value" true])).
    apply (bool_decide_unpack
             (NoDup (col_key <$> [mkColumn "name" "Name" true;
                                  mkColumn "val" "Value" true]))).
    vm_compute. exact I.
  - apply (proj1 (proj2 (indicator_arrows initialSort twice))). reflexivity.
  - apply (proj2 (proj2 (indicator_arrows (mkSort (Some "name") asc) []))
             (mkColumn "name" "Name" true)).
    reflexivity.
Defined.

(** ** The lines of the body *)

Lemma rowKeys_lookup page i :
  rowKeys page !! i = (λ row, rowKey row i) <$> page !! i.
Proof. unfold rowKeys. apply list_lookup_imap. Qed.

(** X10: when every record of the page has an [id] that counts as true
    and the ids are pairwise different, the keys of the lines are
    pairwise different; so are they when no record has an [id] or an
    [entity_id] that counts as true, the keys being the positions. *)
Theorem rowKeys_NoDup (page : list record) :
  (Forall (λ r, truthy (get r "id") = true) page →
   NoDup ((λ r, get r "id") <$> page) →
   rowKeys page = (λ r, get r "id") <$> page ∧ NoDup (rowKeys page)) ∧
  (Forall (λ r, truthy (get r "id") = false ∧
                truthy (get r "entity_id") = false) page →
   NoDup (rowKeys page)).
Proof.
  split.
  - intros Hid Hnd.
    assert (Heq : rowKeys page = (λ r, get r "id") <$> page).
    { apply list_eq. intros i.
      rewrite rowKeys_lookup, list_lookup_fmap.
      destruct (page !! i) as [r|] eqn:Hr; [|done]. simpl. f_equal.
      pose proof (Forall_lookup_1 _ _ _ _ Hid Hr) as Hr_id.
      unfold rowKey, or_else. by rewrite Hr_id, Hr_id. }
    by rewrite Heq.
  - intros Hnone. apply NoDup_alt. intros i j v.
    rewrite !rowKeys_lookup.
    destruct (page !! i) as [r|] eqn:Hr; [|done].
    destruct (page !! j) as [r'|] eqn:Hr'; [|done]. simpl.
    pose proof (Forall_lookup_1 _ _ _ _ Hnone Hr) as [Hi He].
    pose proof (Forall_lookup_1 _ _ _ _ Hnone Hr') as [Hi' He'].
    unfold rowKey, or_else. rewrite Hi, He, Hi', He'. simpl.
    intros [= <-] [= Hij]. lia.
Qed.

Lemma rowKeys_NoDup_witness :
  (rowKeys [A_row; B_row; C_row] = [VString "A"; VString "B"; VString "C"] ∧
   NoDup (rowKeys [A_row; B_row; C_row])) ∧
  NoDup (rowKeys [lamp; lamp2; fan]).
Proof.
  split.
  - apply (proj1 (rowKeys_NoDup [A_row; B_row; C_row])).
    + repeat (apply Forall_cons; split; [reflexivity|]). constructor.
    + apply (bool_decide_unpack
               (NoDup ((λ r, get r "id") <$> [A_row; B_row; C_row]))).
      vm_compute. exact I.
  - apply (proj2 (rowKeys_NoDup [lamp; lamp2; fan])).
    repeat (apply Forall_cons; split; [split; reflexivity|]). constructor.
Defined.

(** Without that, two lines can get the same key: a record whose [id]
    is its neighbour's position. *)
Example rowKeys_collision :
  rowKeys [[("id", VNumber (Fin 1))]; [("name", VString "x")]]
  = [VNumber (Fin 1); VNumber (Fin 1)].
Proof. reflexivity. Qed.

Lemma cell_not_nullish row col : is_nullish (cell row col) = false.
Proof. unfold cell. by destruct (is_nullish (get row (col_key col))) eqn:H. Qed.

(** X11: the body of a render is never blank and never shows both: the
    message is there exactly when there is no line; there is one line
    per record of the page, each with one cell per column, and no cell
    is null or undefined. *)
Theorem DataTable_body props st v :
  DataTable props st = inr v →
  (view_emptyMessage v = None ↔ view_rows v ≠ []) ∧
  length (view_rows v) = length (pageData (view_pagination v)) ∧
  Forall (λ line, length line = length (columns props) ∧
                  Forall (λ c, is_nullish c = false) line) (view_rows v).
Proof.
  unfold DataTable.
  destruct (usePagination _ _ _) as [e|pg]; [done|].
  intros [= <-]. simpl. split; [|split].
  - destruct (pageData pg); simpl; naive_solver.
  - by rewrite length_map.
  - apply Forall_forall. intros line Hline.
    apply list_elem_of_fmap in Hline as (row & -> & _).
    rewrite length_map. split; [done|].
    apply Forall_forall. intros c Hc.
    apply list_elem_of_fmap in Hc as (col & -> & _). apply cell_not_nullish.
Qed.

Lemma DataTable_body_witness :
  ∃ v, DataTable (mkProps twice (Some [lamp; B_row]) [] None) initialState
       = inr v ∧
       (view_emptyMessage v = None ↔ view_rows v ≠ []) ∧
       length (view_rows v) = length (pageData (view_pagination v)) ∧
       Forall (λ line, length line = length twice ∧
                       Forall (λ c, is_nullish c = false) line) (view_rows v).
Proof.
  eexists. split; [reflexivity|].
  apply (DataTable_body (mkProps twice (Some [lamp; B_row]) [] None)
           initialState _ eq_refl).
Defined.
